(** * Huffman coding: a shallow embedding of [huffman.py]

    The development follows the Python module top to bottom: the
    [HeapNode] class, the part of the standard [heapq] module the
    program calls, and the methods of [HuffmanCoding].  Python [str]
    values are lists of characters (8-bit ones: the program only
    compares characters and uses them as keys), Python [int] values
    are [Z], a [dict] whose iteration order matters is an association
    list, a [dict] that is only indexed is a [gmap], and the mutable
    fields of the [HuffmanCoding] object are threaded through a state
    and exception monad.  Opening, reading and writing files, and the
    [rstrip] of the text that was read, are left to the caller. *)

From Stdlib Require Import ZArith Ascii String.
From stdpp Require Import gmap strings list fin_maps.

Local Open Scope Z_scope.

(** ** Python values *)

(** A Python [str]: the sequence of its characters. *)
Abbreviation str := (list ascii).

(** String literals, for examples. *)
Definition py (s : string) : str := list_ascii_of_string s.

(** [len(s)] *)
Definition len {A} (s : list A) : Z := Z.of_nat (length s).

(** The exceptions the program can raise.  [SystemExit] is the
    [exit(0)] of [get_byte_array]. *)
Inductive exn : Type :=
  | IndexError
  | KeyError (key : ascii)
  | ValueError
  | SystemExit.

Inductive result (A : Type) : Type :=
  | Ok (a : A)
  | Raise (e : exn).
Arguments Ok {A} a.
Arguments Raise {A} e.

(** Slices.  [s[:e]] for any integer [e]: a negative end counts from
    the end of the string, and is clipped at 0. *)
Definition slice_to {A} (s : list A) (e : Z) : list A :=
  if e <? 0 then take (Z.to_nat (len s + e)) s else take (Z.to_nat e) s.

(** [s[b:]] for [0 <= b]. *)
Definition slice_from {A} (s : list A) (b : Z) : list A := drop (Z.to_nat b) s.

(** [s[b:e]] for [0 <= b <= e]. *)
Definition slice {A} (s : list A) (b e : Z) : list A :=
  take (Z.to_nat (e - b)) (drop (Z.to_nat b) s).

(** A character of a bit-string. *)
Definition bit (c : ascii) : Prop := c = "0"%char ∨ c = "1"%char.

#[global] Instance bit_dec c : Decision (bit c).
Proof. unfold bit. apply _. Defined.

(** [int(s, 2)] on a string of binary digits; any other string is a
    [ValueError] here ([None]).  Python also accepts a sign, a [0b]
    prefix, underscores and surrounding blanks, none of which the
    program ever writes into a bit-string. *)
Definition bit_value (c : ascii) : option Z :=
  if decide (c = "0"%char) then Some 0
  else if decide (c = "1"%char) then Some 1
  else None.

Fixpoint int2_loop (acc : Z) (s : str) : option Z :=
  match s with
  | [] => Some acc
  | c :: s' =>
      match bit_value c with
      | Some d => int2_loop (2 * acc + d) s'
      | None => None
      end
  end.

Definition int2 (s : str) : option Z :=
  match s with
  | [] => None
  | _ => int2_loop 0 s
  end.

(** [bin(n)[2:]] for [0 <= n]: the binary digits, most significant
    first. *)
Fixpoint pos_digits (p : positive) (acc : str) : str :=
  match p with
  | xH => "1"%char :: acc
  | xO p' => pos_digits p' ("0"%char :: acc)
  | xI p' => pos_digits p' ("1"%char :: acc)
  end.

Definition bin_digits (n : Z) : str :=
  match n with
  | Z0 => ["0"%char]
  | Zpos p => pos_digits p []
  | Zneg p => pos_digits p []
  end.

(** [s.rjust(w, '0')] *)
Definition rjust0 (w : nat) (s : str) : str :=
  replicate (w - length s) "0"%char ++ s.

(** ["{0:08b}".format(n)]: zero fill to width 8, the sign first. *)
Definition format_08b (n : Z) : str :=
  match n with
  | Zneg _ => "-"%char :: rjust0 7 (bin_digits n)
  | _ => rjust0 8 (bin_digits n)
  end.

(** ** class HeapNode *)

(** [char] is [None] on a node that is not a leaf; [left] and [right]
    are [None] until [merge_nodes] sets them. *)
#[warnings="-register-all"]
Inductive HeapNode : Type :=
  mkHeapNode (char : option ascii) (freq : Z) (left right : option HeapNode).

Definition char (n : HeapNode) : option ascii :=
  match n with mkHeapNode c _ _ _ => c end.
Definition freq (n : HeapNode) : Z :=
  match n with mkHeapNode _ f _ _ => f end.
Definition left (n : HeapNode) : option HeapNode :=
  match n with mkHeapNode _ _ l _ => l end.
Definition right (n : HeapNode) : option HeapNode :=
  match n with mkHeapNode _ _ _ r => r end.

(** [HeapNode(char, freq)] *)
Definition new_HeapNode (c : option ascii) (f : Z) : HeapNode :=
  mkHeapNode c f None None.

(** [__lt__] *)
Definition HeapNode_lt (a b : HeapNode) : bool := freq a <? freq b.

(** ** The [heapq] functions the program calls

    [heapq] is Python's standard library; the definitions follow its
    reference implementation, which compares items with [<] only.
    A heap is a list read with [heap !! i] and written with
    [<[i := x]> heap].  Every index the functions below read is in
    range when they are entered through [heappush] and [heappop], so
    the [None] branches of the lookups stand for an [IndexError] that
    is never raised; the loops are bounded by a number of iterations
    that they never reach ([_siftdown_loop_fuel], [_siftup_loop_fuel]). *)
Module heapq.
Section heapq.
Context {A : Type} (lt : A → A → bool).

(** The [while pos > startpos] loop of [_siftdown]; [pos] strictly
    decreases, so [pos] iterations are enough. *)
Fixpoint _siftdown_loop (fuel : nat) (heap : list A) (startpos pos : nat)
    (newitem : A) : list A :=
  match fuel with
  | O => <[pos := newitem]> heap
  | S fuel' =>
      if decide (startpos < pos)%nat then
        let parentpos := ((pos - 1) / 2)%nat in
        match heap !! parentpos with
        | Some parent =>
            if lt newitem parent
            then _siftdown_loop fuel' (<[pos := parent]> heap) startpos parentpos newitem
            else <[pos := newitem]> heap
        | None => <[pos := newitem]> heap
        end
      else <[pos := newitem]> heap
  end.

Definition _siftdown (heap : list A) (startpos pos : nat) : list A :=
  match heap !! pos with
  | Some newitem => _siftdown_loop pos heap startpos pos newitem
  | None => heap
  end.

(** The [while childpos < endpos] loop of [_siftup]: returns the
    heap and the position where the hole ends up. *)
Fixpoint _siftup_loop (fuel : nat) (heap : list A) (pos : nat) : list A * nat :=
  match fuel with
  | O => (heap, pos)
  | S fuel' =>
      let endpos := length heap in
      let childpos := (2 * pos + 1)%nat in
      if decide (childpos < endpos)%nat then
        let rightpos := (childpos + 1)%nat in
        let childpos :=
          match heap !! childpos, heap !! rightpos with
          | Some c, Some r => if negb (lt c r) then rightpos else childpos
          | _, _ => childpos
          end in
        match heap !! childpos with
        | Some c => _siftup_loop fuel' (<[pos := c]> heap) childpos
        | None => (heap, pos)
        end
      else (heap, pos)
  end.

Definition _siftup (heap : list A) (pos : nat) : list A :=
  match heap !! pos with
  | Some newitem =>
      let '(heap', pos') := _siftup_loop (length heap) heap pos in
      _siftdown (<[pos' := newitem]> heap') pos pos'
  | None => heap
  end.

(** [heappush(heap, item)] *)
Definition heappush (heap : list A) (item : A) : list A :=
  let heap := heap ++ [item] in
  _siftdown heap 0 (length heap - 1).

(** [heappop(heap)]: [heap.pop()] raises [IndexError] on an empty
    list. *)
Definition heappop (heap : list A) : result (A * list A) :=
  match last heap with
  | None => Raise IndexError
  | Some lastelt =>
      let heap := take (length heap - 1) heap in
      match heap with
      | [] => Ok (lastelt, heap)
      | returnitem :: _ => Ok (returnitem, _siftup (<[0%nat := lastelt]> heap) 0)
      end
  end.
End heapq.
End heapq.

(** ** class HuffmanCoding *)

(** The fields [heap], [codes] and [reverse_mapping] ([path] is only
    used to name files). *)
Record HuffmanCoding : Type := mkHuffmanCoding {
  heap : list HeapNode;
  codes : gmap ascii str;
  reverse_mapping : gmap str ascii
}.

(** [__init__] *)
Definition init : HuffmanCoding :=
  {| heap := []; codes := ∅; reverse_mapping := ∅ |}.

(** A method: it reads and updates the object, and returns or raises. *)
Definition M (A : Type) : Type := HuffmanCoding → result (A * HuffmanCoding).

#[global] Instance M_ret : MRet M := λ A a self, Ok (a, self).
#[global] Instance M_bind : MBind M := λ A B k m self,
  match m self with
  | Ok (a, self') => k a self'
  | Raise e => Raise e
  end.

(** A [dict] in insertion order, as [for key in frequency] visits it. *)
Abbreviation odict := (list (ascii * Z)).

(** [if not character in frequency: frequency[character] = 0] followed
    by [frequency[character] += 1] *)
Fixpoint count_character (character : ascii) (frequency : odict) : odict :=
  match frequency with
  | [] => [(character, 0 + 1)]
  | (k, v) :: frequency' =>
      if decide (k = character) then (k, v + 1) :: frequency'
      else (k, v) :: count_character character frequency'
  end.

Definition make_frequency_dict (text : str) : odict :=
  foldl (λ frequency character, count_character character frequency) [] text.

(** [make_heap]: one [heappush] per key, in the order of the dict. *)
Definition make_heap (frequency : odict) : M unit :=
  λ self,
    Ok (tt, {| heap := foldl (λ h '(key, f),
                                heapq.heappush HeapNode_lt h (new_HeapNode (Some key) f))
                             (heap self) frequency;
               codes := codes self;
               reverse_mapping := reverse_mapping self |}).

(** The [while(len(self.heap)>1)] loop; [None] when [fuel] iterations
    did not finish it. *)
Fixpoint merge_loop (fuel : nat) (h : list HeapNode) : option (result (list HeapNode)) :=
  match h with
  | [] | [_] => Some (Ok h)
  | _ =>
      match fuel with
      | O => None
      | S fuel' =>
          match heapq.heappop HeapNode_lt h with
          | Raise e => Some (Raise e)
          | Ok (node1, h1) =>
              match heapq.heappop HeapNode_lt h1 with
              | Raise e => Some (Raise e)
              | Ok (node2, h2) =>
                  let merged :=
                    mkHeapNode None (freq node1 + freq node2) (Some node1) (Some node2) in
                  merge_loop fuel' (heapq.heappush HeapNode_lt h2 merged)
              end
          end
      end
  end.

(** [merge_nodes]: every iteration shortens the heap by one, so
    [len(self.heap)] iterations are enough ([merge_loop_terminates]). *)
Definition merge_nodes : M unit :=
  λ self,
    match merge_loop (length (heap self)) (heap self) with
    | Some (Ok h) =>
        Ok (tt, {| heap := h; codes := codes self;
                   reverse_mapping := reverse_mapping self |})
    | Some (Raise e) => Raise e
    | None => Ok (tt, self)
    end.

(** [make_codes_helper]: the test [root == None] is made where the
    child is read, the recursion being on the node. *)
Fixpoint make_codes_node (root : HeapNode) (current_code : str)
    (self : HuffmanCoding) : HuffmanCoding :=
  match root with
  | mkHeapNode (Some c) _ _ _ =>
      {| heap := heap self;
         codes := <[c := current_code]> (codes self);
         reverse_mapping := <[current_code := c]> (reverse_mapping self) |}
  | mkHeapNode None _ l r =>
      let self :=
        match l with
        | None => self
        | Some l' => make_codes_node l' (current_code ++ ["0"%char]) self
        end in
      match r with
      | None => self
      | Some r' => make_codes_node r' (current_code ++ ["1"%char]) self
      end
  end.

Definition make_codes_helper (root : option HeapNode) (current_code : str) : M unit :=
  λ self,
    match root with
    | None => Ok (tt, self)
    | Some n => Ok (tt, make_codes_node n current_code self)
    end.

Definition make_codes : M unit :=
  λ self,
    match heapq.heappop HeapNode_lt (heap self) with
    | Raise e => Raise e
    | Ok (root, h) =>
        make_codes_helper (Some root) []
          {| heap := h; codes := codes self;
             reverse_mapping := reverse_mapping self |}
    end.

(** [get_encoded_text]: [self.codes[character]] raises [KeyError]. *)
Fixpoint get_encoded_loop (codes : gmap ascii str) (encoded_text : str)
    (text : str) : result str :=
  match text with
  | [] => Ok encoded_text
  | character :: text' =>
      match codes !! character with
      | Some code => get_encoded_loop codes (encoded_text ++ code) text'
      | None => Raise (KeyError character)
      end
  end.

Definition get_encoded_text (text : str) : M str :=
  λ self,
    match get_encoded_loop (codes self) [] text with
    | Ok encoded_text => Ok (encoded_text, self)
    | Raise e => Raise e
    end.

(** [pad_encoded_text] *)
Definition extra_padding_of (encoded_text : str) : Z := 8 - len encoded_text mod 8.

Definition pad_encoded_text (encoded_text : str) : str :=
  let extra_padding := extra_padding_of encoded_text in
  let encoded_text := encoded_text ++ replicate (Z.to_nat extra_padding) "0"%char in
  let padded_info := format_08b extra_padding in
  padded_info ++ encoded_text.

(** [range(0, n, 8)] *)
Definition range8 (n : Z) : list Z :=
  (λ k, 8 * Z.of_nat k) <$> seq 0 (Z.to_nat ((n + 7) / 8)).

(** The loop of [get_byte_array]; [b.append(v)] raises [ValueError]
    unless [0 <= v < 256]. *)
Fixpoint byte_loop (padded_encoded_text : str) (indices : list Z) (b : list Z)
    : result (list Z) :=
  match indices with
  | [] => Ok b
  | i :: indices' =>
      let byte := slice padded_encoded_text i (i + 8) in
      match int2 byte with
      | None => Raise ValueError
      | Some v =>
          if decide (0 ≤ v < 256) then byte_loop padded_encoded_text indices' (b ++ [v])
          else Raise ValueError
      end
  end.

Definition get_byte_array (padded_encoded_text : str) : result (list Z) :=
  if decide (len padded_encoded_text mod 8 ≠ 0) then Raise SystemExit
  else byte_loop padded_encoded_text (range8 (len padded_encoded_text)) [].

(** A call that does not touch the object. *)
Definition lift {A} (r : result A) : M A :=
  λ self, match r with Ok a => Ok (a, self) | Raise e => Raise e end.

(** [compress], from the text that was read and stripped to the bytes
    that are written; opening, reading and writing the files is left
    to the caller. *)
Definition compress (text : str) : M (list Z) :=
  let frequency := make_frequency_dict text in
  make_heap frequency;;
  merge_nodes;;
  make_codes;;
  encoded_text ← get_encoded_text text;
  let padded_encoded_text := pad_encoded_text encoded_text in
  lift (get_byte_array padded_encoded_text).

(** [remove_padding] *)
Definition remove_padding (padded_encoded_text : str) : result str :=
  let padded_info := slice_to padded_encoded_text 8 in
  match int2 padded_info with
  | None => Raise ValueError
  | Some extra_padding =>
      let padded_encoded_text := slice_from padded_encoded_text 8 in
      let encoded_text := slice_to padded_encoded_text (-1 * extra_padding) in
      Ok encoded_text
  end.

(** [decode_text]: one iteration of the loop, on the pair
    [(current_code, decoded_text)]. *)
Definition decode_step (reverse_mapping : gmap str ascii) (st : str * str)
    (bit : ascii) : str * str :=
  let current_code := st.1 ++ [bit] in
  match reverse_mapping !! current_code with
  | Some character => ([], st.2 ++ [character])
  | None => (current_code, st.2)
  end.

Definition decode_loop (reverse_mapping : gmap str ascii) (st : str * str)
    (encoded_text : str) : str * str :=
  foldl (decode_step reverse_mapping) st encoded_text.

Definition decode_text (encoded_text : str) : M str :=
  λ self, Ok ((decode_loop (reverse_mapping self) ([], []) encoded_text).2, self).

(** [bin(byte)[2:].rjust(8, '0')] *)
Definition byte_bits (byte : Z) : str := rjust0 8 (bin_digits byte).

(** [decompress], from the bytes that were read to the text that is
    written. *)
Definition read_bits (input : list Z) : str :=
  foldl (λ bit_string byte, bit_string ++ byte_bits byte) [] input.

Definition decompress (input : list Z) : M str :=
  let bit_string := read_bits input in
  encoded_text ← lift (remove_padding bit_string);
  decode_text encoded_text.

(** Compressing a text and decompressing the result with the same
    object. *)
Definition round_trip (text : str) : result str :=
  match (b ← compress text; decompress b) init with
  | Ok (text', _) => Ok text'
  | Raise e => Raise e
  end.


(** ** Auxiliary definitions for the statements *)

(** The leaves of a tree in the order [make_codes_helper] reaches
    them, each with the path that leads to it from [current_code]. *)
Fixpoint leaf_codes (root : HeapNode) (current_code : str) : list (ascii * str) :=
  match root with
  | mkHeapNode (Some c) _ _ _ => [(c, current_code)]
  | mkHeapNode None _ l r =>
      match l with
      | None => []
      | Some l' => leaf_codes l' (current_code ++ ["0"%char])
      end ++
      match r with
      | None => []
      | Some r' => leaf_codes r' (current_code ++ ["1"%char])
      end
  end.

(** The characters at the leaves of the trees of a heap. *)
Definition heap_chars (h : list HeapNode) : list ascii :=
  h ≫= λ n, (leaf_codes n []).*1.

(** The three steps of [compress] that build the code table. *)
Definition build_codes (frequency : odict) : M unit :=
  make_heap frequency;; merge_nodes;; make_codes.

(** A value a byte of a file can have. *)
Definition byte_value (v : Z) : Prop := 0 ≤ v < 256.

#[global] Instance byte_value_dec v : Decision (byte_value v).
Proof. unfold byte_value. apply _. Defined.

(** The number of occurrences of a character in a text. *)
Definition occurrences (c : ascii) (text : str) : Z :=
  len (filter (λ c', c' = c) text).

(** The length of the encoded text as the frequency table and the
    code table give it: the sum, over the keys, of the frequency times
    the length of the code. *)
Definition weighted_length (frequency : odict) (codes : gmap ascii str) : Z :=
  foldr (λ '(c, f) total, f * len (default [] (codes !! c)) + total) 0 frequency.

(** A tree as [merge_nodes] builds it: a leaf holds a character and
    no child; any other node holds no character, two children and the
    sum of their frequencies. *)
Fixpoint tree_ok (n : HeapNode) : Prop :=
  match n with
  | mkHeapNode (Some _) _ None None => True
  | mkHeapNode None f (Some l) (Some r) => f = freq l + freq r ∧ tree_ok l ∧ tree_ok r
  | _ => False
  end.

(** The leaves of a tree, left to right, each with its frequency. *)
Fixpoint leaves (n : HeapNode) : list (ascii * Z) :=
  match n with
  | mkHeapNode (Some c) f _ _ => [(c, f)]
  | mkHeapNode None _ l r =>
      match l with None => [] | Some l' => leaves l' end ++
      match r with None => [] | Some r' => leaves r' end
  end.

(** The sum of the frequencies of a table. *)
Definition sum_freq (frequency : odict) : Z :=
  foldr (λ '(_, f) total, f + total) 0 frequency.

(** The invariant of a [heapq] heap whose items are compared by
    [key]: no item is smaller than its parent, the item at
    [(i - 1) // 2]. *)
Definition heap_ordered {A} (key : A → Z) (heap : list A) : Prop :=
  ∀ i n p,
    (0 < i)%nat → heap !! i = Some n → heap !! ((i - 1) / 2)%nat = Some p →
    key p ≤ key n.

(** The paths to the nodes of a tree that are not leaves. *)
Fixpoint inner_codes (root : HeapNode) (current_code : str) : list str :=
  match root with
  | mkHeapNode (Some _) _ _ _ => []
  | mkHeapNode None _ l r =>
      current_code ::
      match l with
      | None => []
      | Some l' => inner_codes l' (current_code ++ ["0"%char])
      end ++
      match r with
      | None => []
      | Some r' => inner_codes r' (current_code ++ ["1"%char])
      end
  end.

(** * Properties *)

(** Division and remainder by a constant, for [lia]. *)
Ltac Zify.zify_post_hook ::= Z.div_mod_to_equations.

(** ** Bit-strings *)

Lemma bit_value_bit c : bit c → ∃ d, bit_value c = Some d ∧ 0 ≤ d ≤ 1.
Proof. intros [-> | ->]; [exists 0 | exists 1]; split; (reflexivity || lia). Qed.

Lemma len_app {A} (s t : list A) : len (s ++ t) = len s + len t.
Proof. unfold len. rewrite length_app. lia. Qed.

Lemma len_nonneg {A} (s : list A) : 0 ≤ len s.
Proof. unfold len. lia. Qed.

(** The header of a padding count: eight binary digits of value [n]. *)
Lemma format_08b_pad n :
  1 ≤ n ≤ 8 →
  length (format_08b n) = 8%nat ∧ Forall bit (format_08b n)
  ∧ int2 (format_08b n) = Some n.
Proof.
  intros Hn.
  assert (n = 1 ∨ n = 2 ∨ n = 3 ∨ n = 4 ∨ n = 5 ∨ n = 6 ∨ n = 7 ∨ n = 8)
    as Hcases by lia.
  repeat (destruct Hcases as [-> | Hcases]); try subst n;
    (split; [reflexivity | split; [| reflexivity]]);
    by apply (bool_decide_unpack _).
Qed.

(** Eight binary digits are a byte value, and [byte_bits] writes the
    same digits back. *)
Lemma int2_byte_bits (s : str) :
  Forall bit s → length s = 8%nat →
  ∃ v, int2 s = Some v ∧ 0 ≤ v < 256 ∧ byte_bits v = s.
Proof.
  intros Hs Hl.
  do 8 (destruct s as [| ? s]; [discriminate Hl |]).
  destruct s; [| discriminate Hl]. clear Hl.
  repeat match goal with
         | H : Forall _ (_ :: _) |- _ => apply Forall_cons in H; destruct H as [[-> | ->] H]
         end;
    eexists; (split; [vm_compute; reflexivity | split; [lia | reflexivity]]).
Qed.

Lemma read_bits_from (acc : str) (input : list Z) :
  foldl (λ bit_string byte, bit_string ++ byte_bits byte) acc input
  = acc ++ read_bits input.
Proof.
  unfold read_bits. revert acc.
  induction input as [| v input IH]; intros acc; simpl.
  - by rewrite app_nil_r.
  - rewrite IH, (IH (byte_bits v)). by rewrite app_assoc.
Qed.

Lemma read_bits_cons v (input : list Z) :
  read_bits (v :: input) = byte_bits v ++ read_bits input.
Proof. unfold read_bits at 1. simpl. apply read_bits_from. Qed.

(** ** Byte packing *)

Lemma range8_aligned (s : str) :
  len s mod 8 = 0 →
  ∃ n, length s = (8 * n)%nat ∧ range8 (len s) = (λ k, 8 * Z.of_nat k) <$> seq 0 n.
Proof.
  intros Hm. exists (Z.to_nat (len s / 8)). unfold range8, len in *.
  split; [lia |]. do 2 f_equal. lia.
Qed.

(** The packing loop from chunk [k0] on: it appends one byte per
    chunk, and the bytes read back as the rest of the bit-string. *)
Lemma byte_loop_chunks (full : str) :
  Forall bit full →
  ∀ n k0 b,
    length full = (8 * (k0 + n))%nat →
    ∃ bs, byte_loop full ((λ k, 8 * Z.of_nat k) <$> seq k0 n) b = Ok (b ++ bs)
          ∧ length bs = n
          ∧ read_bits bs = drop (8 * k0) full.
Proof.
  intros Hbits. induction n as [| n IH]; intros k0 b Hlen.
  - exists []. simpl. rewrite app_nil_r. repeat split.
    rewrite drop_ge; [done | lia].
  - change (seq k0 (S n)) with (k0 :: seq (S k0) n).
    rewrite fmap_cons. cbn [byte_loop]. unfold slice.
    replace (Z.to_nat (8 * Z.of_nat k0 + 8 - 8 * Z.of_nat k0)) with 8%nat by lia.
    replace (Z.to_nat (8 * Z.of_nat k0)) with (8 * k0)%nat by lia.
    destruct (int2_byte_bits (take 8 (drop (8 * k0) full))) as (v & -> & Hv & Hback).
    { by apply Forall_take, Forall_drop. }
    { rewrite length_take, length_drop. lia. }
    rewrite decide_True by done.
    destruct (IH (S k0) (b ++ [v])) as (bs & -> & Hl & Hrd); [lia |].
    exists (v :: bs). rewrite <- app_assoc. repeat split; [simpl; lia |].
    rewrite read_bits_cons, Hback, Hrd.
    replace (8 * S k0)%nat with (8 * k0 + 8)%nat by lia.
    rewrite <- drop_drop. apply take_drop.
Qed.

Lemma byte_loop_no_exit (s : str) indices b : byte_loop s indices b ≠ Raise SystemExit.
Proof.
  revert b. induction indices as [| i indices IH]; intros b; simpl; [done |].
  destruct (int2 _); [| done]. case_decide; [apply IH | done].
Qed.

(** ** Padding *)

Lemma extra_padding_range (B : str) : 1 ≤ extra_padding_of B ≤ 8.
Proof. unfold extra_padding_of. pose proof (len_nonneg B). lia. Qed.

Lemma pad_encoded_text_length (B : str) :
  length (pad_encoded_text B)
  = (8 + length B + Z.to_nat (extra_padding_of B))%nat.
Proof.
  unfold pad_encoded_text.
  destruct (format_08b_pad _ (extra_padding_range B)) as (Hl & _).
  rewrite !length_app, Hl, length_replicate. lia.
Qed.

Lemma pad_encoded_text_aligned (B : str) : len (pad_encoded_text B) mod 8 = 0.
Proof.
  unfold len. rewrite pad_encoded_text_length.
  unfold extra_padding_of, len. lia.
Qed.

Lemma pad_encoded_text_bits (B : str) : Forall bit B → Forall bit (pad_encoded_text B).
Proof.
  intros HB. unfold pad_encoded_text.
  destruct (format_08b_pad _ (extra_padding_range B)) as (_ & Hb & _).
  rewrite !Forall_app. repeat split; [done.. |].
  apply Forall_replicate. by left.
Qed.

(** C10. A bit-string whose length is a multiple of 8 is packed into
    bytes without error, and expanding every byte back into 8 bits with
    leading zeros, as [decompress] does, gives the bit-string back. *)
Theorem byte_packing_round_trip (s : str) :
  Forall bit s → len s mod 8 = 0 →
  ∃ b, get_byte_array s = Ok b ∧ read_bits b = s.
Proof.
  intros Hbits Hm. unfold get_byte_array.
  rewrite decide_False by (intros H; by apply H).
  destruct (range8_aligned s Hm) as (n & Hlen & ->).
  destruct (byte_loop_chunks s Hbits n 0%nat []) as (bs & Hloop & _ & Hrd); [lia |].
  exists bs. split; [by rewrite Hloop |]. by rewrite Hrd.
Qed.

Lemma byte_packing_round_trip_witness :
  ∃ b, get_byte_array (py "0000011100011111") = Ok b
       ∧ read_bits b = py "0000011100011111".
Proof.
  apply (byte_packing_round_trip (py "0000011100011111")).
  - by apply (bool_decide_unpack _).
  - reflexivity.
Defined.

(** C8. The bit-string returned by [pad_encoded_text] has a length
    that is a multiple of 8, whatever its argument, and
    [get_byte_array] never takes its [exit(0)] branch on it. *)
Theorem padded_text_is_aligned (B : str) :
  len (pad_encoded_text B) mod 8 = 0
  ∧ get_byte_array (pad_encoded_text B) ≠ Raise SystemExit.
Proof.
  split; [apply pad_encoded_text_aligned |].
  unfold get_byte_array.
  rewrite decide_False by (intros H; apply H, pad_encoded_text_aligned).
  apply byte_loop_no_exit.
Qed.

(** The first byte that [get_byte_array] writes is the value of the
    first eight bits. *)
Lemma get_byte_array_header (s : str) :
  Forall bit s → len s mod 8 = 0 → (8 ≤ length s)%nat →
  ∃ v bs, int2 (slice_to s 8) = Some v ∧ get_byte_array s = Ok (v :: bs).
Proof.
  intros Hbits Hm H8. unfold get_byte_array.
  rewrite decide_False by (intros H; by apply H).
  destruct (range8_aligned s Hm) as (n & Hlen & ->).
  destruct n as [| n]; [lia |].
  destruct (int2_byte_bits (take 8 s)) as (v & Hv & Hr & _).
  { by apply Forall_take. }
  { rewrite length_take. lia. }
  change (seq 0 (S n)) with (0%nat :: seq 1 n).
  rewrite fmap_cons. cbn [byte_loop].
  change (slice s (8 * Z.of_nat 0) (8 * Z.of_nat 0 + 8)) with (take 8 s).
  change (slice_to s 8) with (take 8 s). rewrite Hv.
  rewrite decide_True by done.
  destruct (byte_loop_chunks s Hbits n 1%nat ([] ++ [v])) as (bs & -> & _); [lia |].
  by exists v, bs.
Qed.

(** C2, as the code has it.  The padding count is [8 - len(B) mod 8]:
    it lies between 1 and 8, it is 8 when [len(B)] is a multiple of 8,
    the padded text is the 8-bit header of the count, [B] and that many
    zeros, and the first byte of the payload is the count. *)
Theorem padding_count (B : str) :
  Forall bit B →
  let pad := extra_padding_of B in
  pad = 8 - len B mod 8
  ∧ 1 ≤ pad ≤ 8
  ∧ (len B mod 8 = 0 → pad = 8)
  ∧ pad_encoded_text B
    = format_08b pad ++ B ++ replicate (Z.to_nat pad) "0"%char
  ∧ ∃ bs, get_byte_array (pad_encoded_text B) = Ok (pad :: bs).
Proof.
  intros HB pad. pose proof (extra_padding_range B) as Hr.
  repeat split; try (subst pad; lia).
  - subst pad. unfold extra_padding_of. lia.
  - destruct (get_byte_array_header (pad_encoded_text B)) as (v & bs & Hv & Hbs).
    + by apply pad_encoded_text_bits.
    + apply pad_encoded_text_aligned.
    + rewrite pad_encoded_text_length. lia.
    + exists bs. rewrite Hbs. do 2 f_equal.
      destruct (format_08b_pad _ Hr) as (Hl & _ & Hi).
      change (slice_to (pad_encoded_text B) 8) with (take 8 (pad_encoded_text B)) in Hv.
      unfold pad_encoded_text in Hv.
      rewrite take_app_length' in Hv by done. subst pad. congruence.
Qed.

Lemma padding_count_witness :
  let B := py "000111110" in
  let pad := extra_padding_of B in
  pad = 8 - len B mod 8
  ∧ 1 ≤ pad ≤ 8
  ∧ (len B mod 8 = 0 → pad = 8)
  ∧ pad_encoded_text B
    = format_08b pad ++ B ++ replicate (Z.to_nat pad) "0"%char
  ∧ ∃ bs, get_byte_array (pad_encoded_text B) = Ok (pad :: bs).
Proof.
  apply (padding_count (py "000111110")).
  by apply (bool_decide_unpack _).
Defined.

(** C2 as stated fails: on a bit-string whose length is a multiple of
    8 (here the empty one) the padding count is 8, which is neither
    [(8 - len(B) mod 8) mod 8 = 0] nor a value in 0..7, and the header
    byte is 8. *)
Lemma padding_count_counterexample :
  let B : str := [] in
  len B mod 8 = 0
  ∧ extra_padding_of B = 8
  ∧ extra_padding_of B ≠ (8 - len B mod 8) mod 8
  ∧ ¬ (0 ≤ extra_padding_of B ≤ 7)
  ∧ get_byte_array (pad_encoded_text B) = Ok [8; 0].
Proof. vm_compute. repeat split; try done. intros [_ H]. by apply H. Qed.

(** ** Padding removal *)

(** C6, as the code has it.  When the first 8 bits encode a count
    [pad] of at least 1, [remove_padding] returns the rest of the text
    without its last [pad] bits (without all of them when there are
    fewer than [pad]). *)
Theorem remove_padding_drops_pad (s : str) (pad : Z) :
  int2 (slice_to s 8) = Some pad → 1 ≤ pad →
  let rest := slice_from s 8 in
  remove_padding s = Ok (take (length rest - Z.to_nat pad) rest).
Proof.
  intros Hpad Hge rest. unfold remove_padding. rewrite Hpad.
  fold rest. f_equal. unfold slice_to.
  replace (-1 * pad <? 0) with true by (symmetry; apply Z.ltb_lt; lia).
  f_equal. unfold len. lia.
Qed.

Lemma remove_padding_drops_pad_witness :
  remove_padding (py "0000011100011111000000000")
  = Ok (take (length (slice_from (py "0000011100011111000000000") 8) - Z.to_nat 7)
             (slice_from (py "0000011100011111000000000") 8)).
Proof.
  apply (remove_padding_drops_pad (py "0000011100011111000000000") 7).
  - reflexivity.
  - lia.
Defined.

(** C6 as stated fails for a count of 0: the slice [[:-0]] is [[:0]],
    so the whole rest is dropped instead of being returned unchanged. *)
Lemma remove_padding_counterexample :
  let s := py "000000001" in
  int2 (slice_to s 8) = Some 0
  ∧ slice_from s 8 = py "1"
  ∧ remove_padding s = Ok []
  ∧ remove_padding s ≠ Ok (slice_from s 8).
Proof. vm_compute. repeat split; done. Qed.

(** ** Encoding *)

Lemma get_encoded_loop_ok (codes : gmap ascii str) (text : str) :
  ∀ acc, (∀ c, c ∈ text → is_Some (codes !! c)) →
  ∃ enc, get_encoded_loop codes acc text = Ok (acc ++ enc).
Proof.
  induction text as [| c text IH]; intros acc Hall; simpl.
  - exists []. by rewrite app_nil_r.
  - destruct (Hall c) as [code Hc]; [by left |]. rewrite Hc.
    destruct (IH (acc ++ code)) as [enc ->].
    { intros c' Hin. apply Hall. by right. }
    exists (code ++ enc). by rewrite app_assoc.
Qed.

Lemma get_encoded_loop_raise (codes : gmap ascii str) (text : str) :
  ∀ acc e, get_encoded_loop codes acc text = Raise e →
  ∃ c, e = KeyError c ∧ c ∈ text ∧ codes !! c = None.
Proof.
  induction text as [| c text IH]; intros acc e; simpl; [done |].
  destruct (codes !! c) as [code |] eqn:Hc.
  - intros H. destruct (IH _ _ H) as (c' & -> & Hin & Hnone).
    exists c'. repeat split; [by right | done].
  - intros [= <-]. exists c. repeat split; [by left | done].
Qed.

Lemma get_encoded_loop_unknown (codes : gmap ascii str) (text : str) c :
  c ∈ text → codes !! c = None →
  ∀ acc, ∃ e, get_encoded_loop codes acc text = Raise e.
Proof.
  intros Hin Hnone. induction text as [| d text IH]; intros acc.
  - by apply elem_of_nil in Hin.
  - simpl. destruct (decide (d = c)) as [-> | Hne].
    + rewrite Hnone. by eexists.
    + destruct (codes !! d); [| by eexists].
      apply IH. apply elem_of_cons in Hin as [-> | ?]; done.
Qed.

(** C9. [get_encoded_text] raises, and then a [KeyError], exactly when
    some character of the text has no entry in [codes]; a call that
    raises returns no text, and a call that does not raise leaves the
    object as it was. *)
Theorem get_encoded_text_unknown_symbol (text : str) (self : HuffmanCoding) :
  ((∃ c, get_encoded_text text self = Raise (KeyError c))
   ↔ (∃ c, c ∈ text ∧ codes self !! c = None))
  ∧ (∀ e, get_encoded_text text self = Raise e → ∃ c, e = KeyError c)
  ∧ (∀ r, get_encoded_text text self = Ok r → r.2 = self).
Proof.
  unfold get_encoded_text.
  destruct (get_encoded_loop (codes self) [] text) as [enc | e] eqn:Hloop.
  - repeat split; try done.
    + by intros [c H].
    + intros (c & Hin & Hnone).
      destruct (get_encoded_loop_unknown _ _ _ Hin Hnone []) as [e He].
      congruence.
    + by intros r [= <-].
  - destruct (get_encoded_loop_raise _ _ _ _ Hloop) as (c & -> & Hin & Hnone).
    repeat split; try done.
    + intros _. by exists c.
    + intros _. by exists c.
    + intros e [= <-]. by exists c.
Qed.

(** ** Decoding *)

Lemma decode_loop_app rm st (s t : str) :
  decode_loop rm st (s ++ t) = decode_loop rm (decode_loop rm st s) t.
Proof. apply foldl_app. Qed.

(** Bits that complete no code only pile up in [current_code]. *)
Lemma decode_loop_unmatched (rm : gmap str ascii) (t : str) :
  ∀ acc decoded,
    (∀ p, p ≠ [] → p `prefix_of` t → rm !! (acc ++ p) = None) →
    decode_loop rm (acc, decoded) t = (acc ++ t, decoded).
Proof.
  induction t as [| b t IH]; intros acc decoded Hun.
  - by rewrite app_nil_r.
  - unfold decode_loop. cbn [foldl]. unfold decode_step at 2. cbn [fst snd].
    rewrite (Hun [b]); [| done | by apply prefix_cons, prefix_nil].
    fold (decode_loop rm (acc ++ [b], decoded) t).
    rewrite IH; [by rewrite <- app_assoc |].
    intros p Hp Hpre. rewrite <- app_assoc. apply Hun; [done |].
    by apply (prefix_cons b).
Qed.

(** The loop ends with the undecoded tail of the input in
    [current_code], and with the decoding of what comes before it. *)
Lemma decode_loop_split (rm : gmap str ascii) (input : str) :
  ∃ s, input = s ++ (decode_loop rm ([], []) input).1
       ∧ decode_loop rm ([], []) s = ([], (decode_loop rm ([], []) input).2).
Proof.
  induction input as [| bit input IH] using rev_ind; [by exists [] |].
  destruct IH as (s & Hinput & Hs). rewrite decode_loop_app.
  destruct (decode_loop rm ([], []) input) as [current_code decoded] eqn:Hloop.
  cbn [fst snd] in *. unfold decode_loop at 1 3. cbn [foldl].
  unfold decode_step. cbn [fst snd].
  destruct (rm !! (current_code ++ [bit])) as [character |] eqn:Hm; cbn [fst snd].
  - exists (input ++ [bit]). split; [by rewrite app_nil_r |].
    rewrite decode_loop_app, Hloop. unfold decode_loop. cbn [foldl].
    unfold decode_step. cbn [fst snd]. by rewrite Hm.
  - exists s. split; [| done]. rewrite Hinput at 1. by rewrite app_assoc.
Qed.

(** C5, as the code has it.  [decode_text] never raises: it returns
    the text the loop has decoded when the input ends.  The bits left
    in [current_code] at that point, matched or not, are the end of the
    input, and the text returned is the decoding of the input without
    them: leftover bits are dropped without an error. *)
Theorem decode_text_leftover_dropped (input : str) (self : HuffmanCoding) :
  let st := decode_loop (reverse_mapping self) ([], []) input in
  decode_text input self = Ok (st.2, self)
  ∧ ∃ s, input = s ++ st.1
         ∧ decode_loop (reverse_mapping self) ([], []) s = ([], st.2)
         ∧ decode_text s self = decode_text input self.
Proof.
  intros st. split; [done |].
  destruct (decode_loop_split (reverse_mapping self) input) as (s & Hinput & Hs).
  exists s. repeat split; [done.. |].
  unfold decode_text. by rewrite Hs.
Qed.

(** C5 as stated fails.  With the table built for ["aaabbc"], the
    input ["001"] ends with ["1"] in the accumulator, which matches no
    entry, and [decode_text] returns the partial text ["aa"] instead of
    raising; so does [decompress] on the payload [[2; 31]], whose
    header is wrong: its bits ["000111"] end with an unmatched ["1"]
    and the text ["aaab"] is returned. *)
Lemma decode_text_counterexample :
  ∃ b self,
    compress (py "aaabbc") init = Ok (b, self)
    ∧ (decode_loop (reverse_mapping self) ([], []) (py "001")).1 = py "1"
    ∧ reverse_mapping self !! py "1" = None
    ∧ decode_text (py "001") self = Ok (py "aa", self)
    ∧ remove_padding (read_bits [2; 31]) = Ok (py "000111")
    ∧ (decode_loop (reverse_mapping self) ([], []) (py "000111")).1 = py "1"
    ∧ decompress [2; 31] self = Ok (py "aaab", self).
Proof.
  eexists _, _. split; [vm_compute; reflexivity |].
  vm_compute. repeat split.
Qed.

(** ** The heap operations keep the items *)

Section heapq_facts.
Context {A : Type} (lt : A → A → bool).
Implicit Types heap : list A.

Lemma insert_delete_Permutation heap i x :
  (i < length heap)%nat → <[i := x]> heap ≡ₚ x :: delete i heap.
Proof.
  intros Hi. rewrite (delete_Permutation (<[i := x]> heap) i x).
  - by rewrite !delete_take_drop, take_insert_ge, drop_insert_lt by lia.
  - by apply list_lookup_insert_eq.
Qed.

(** Moving the item at [j] into the hole at [i] moves the hole to [j]. *)
Lemma move_hole heap i j c :
  i ≠ j → (i < length heap)%nat → heap !! j = Some c →
  delete j (<[i := c]> heap) ≡ₚ delete i heap.
Proof.
  intros Hij Hi Hj.
  apply (Permutation_cons_inv (a := c)).
  rewrite <- (delete_Permutation (<[i := c]> heap) j c)
    by (by rewrite list_lookup_insert_ne).
  by apply insert_delete_Permutation.
Qed.

Lemma _siftdown_loop_Permutation fuel : ∀ heap startpos pos newitem,
  (pos < length heap)%nat →
  heapq._siftdown_loop lt fuel heap startpos pos newitem ≡ₚ newitem :: delete pos heap.
Proof.
  induction fuel as [| fuel IH]; intros heap startpos pos newitem Hpos;
    cbn [heapq._siftdown_loop].
  - by apply insert_delete_Permutation.
  - case_decide as Hlt; [| by apply insert_delete_Permutation].
    destruct (heap !! ((pos - 1) / 2)%nat) as [parent |] eqn:Hparent;
      [| by apply insert_delete_Permutation].
    destruct (lt newitem parent); [| by apply insert_delete_Permutation].
    assert ((pos - 1) / 2 < pos)%nat as Hpp
      by (apply Nat.Div0.div_lt_upper_bound; lia).
    rewrite IH by (rewrite length_insert; lia).
    f_equiv. apply move_hole; [lia | done | done].
Qed.

Lemma _siftdown_Permutation heap startpos pos :
  heapq._siftdown lt heap startpos pos ≡ₚ heap.
Proof.
  unfold heapq._siftdown. destruct (heap !! pos) as [newitem |] eqn:Hpos; [| done].
  rewrite _siftdown_loop_Permutation by (by eapply lookup_lt_Some).
  by rewrite <- delete_Permutation.
Qed.

Lemma _siftup_loop_Permutation fuel : ∀ heap pos heap' pos',
  (pos < length heap)%nat →
  heapq._siftup_loop lt fuel heap pos = (heap', pos') →
  (pos' < length heap')%nat ∧ delete pos' heap' ≡ₚ delete pos heap.
Proof.
  induction fuel as [| fuel IH]; intros heap pos heap' pos' Hpos;
    cbn [heapq._siftup_loop].
  - by intros [= <- <-].
  - case_decide as Hlt; [| by intros [= <- <-]].
    set (childpos := match heap !! (2 * pos + 1)%nat, heap !! (2 * pos + 1 + 1)%nat with
                     | Some c, Some r => if negb (lt c r) then (2 * pos + 1 + 1)%nat
                                         else (2 * pos + 1)%nat
                     | _, _ => (2 * pos + 1)%nat
                     end).
    assert (pos < childpos)%nat as Hchild.
    { subst childpos. repeat case_match; lia. }
    destruct (heap !! childpos) as [c |] eqn:Hc; [| by intros [= <- <-]].
    intros Hloop. apply IH in Hloop as [Hlen Hperm].
    + split; [done |]. rewrite Hperm. apply move_hole; [lia | done | done].
    + rewrite length_insert. by eapply lookup_lt_Some.
Qed.

Lemma _siftup_Permutation heap pos : heapq._siftup lt heap pos ≡ₚ heap.
Proof.
  unfold heapq._siftup. destruct (heap !! pos) as [newitem |] eqn:Hpos; [| done].
  destruct (heapq._siftup_loop lt (length heap) heap pos) as [heap' pos'] eqn:Hloop.
  apply _siftup_loop_Permutation in Hloop as [Hlen Hperm];
    [| by eapply lookup_lt_Some].
  rewrite _siftdown_Permutation, insert_delete_Permutation, Hperm by done.
  by rewrite <- delete_Permutation.
Qed.

Lemma heappush_Permutation heap item : heapq.heappush lt heap item ≡ₚ item :: heap.
Proof.
  unfold heapq.heappush. rewrite _siftdown_Permutation.
  by rewrite Permutation_app_comm.
Qed.

Lemma heappop_empty : heapq.heappop lt [] = Raise IndexError.
Proof. reflexivity. Qed.

Lemma heappop_Permutation heap :
  heap ≠ [] → ∃ item heap', heapq.heappop lt heap = Ok (item, heap') ∧ heap ≡ₚ item :: heap'.
Proof.
  intros Hne. unfold heapq.heappop.
  destruct (last heap) as [lastelt |] eqn:Hlast; [| by apply last_None in Hlast].
  apply last_Some in Hlast as [front ->].
  rewrite length_app, take_app_length' by (simpl; lia).
  destruct front as [| returnitem front].
  - by exists lastelt, [].
  - eexists _, _. split; [done |].
    rewrite _siftup_Permutation. simpl. f_equiv.
    symmetry. apply Permutation_cons_append.
Qed.

End heapq_facts.

Lemma _siftdown_loop_fuel {A} (lt : A → A → bool) f1 : ∀ f2 heap startpos pos newitem,
  (pos ≤ f1)%nat → (pos ≤ f2)%nat →
  heapq._siftdown_loop lt f1 heap startpos pos newitem
  = heapq._siftdown_loop lt f2 heap startpos pos newitem.
Proof.
  induction f1 as [| f1 IH]; intros [| f2] heap startpos pos newitem H1 H2;
    cbn [heapq._siftdown_loop]; try done.
  - by rewrite decide_False by lia.
  - by rewrite decide_False by lia.
  - case_decide; [| done]. destruct (heap !! _); [| done].
    destruct (lt newitem a); [| done].
    assert ((pos - 1) / 2 < pos)%nat
      by (apply Nat.Div0.div_lt_upper_bound; lia).
    apply IH; lia.
Qed.

Lemma _siftup_loop_fuel {A} (lt : A → A → bool) f1 : ∀ f2 heap pos,
  (length heap - pos ≤ f1)%nat → (length heap - pos ≤ f2)%nat →
  heapq._siftup_loop lt f1 heap pos = heapq._siftup_loop lt f2 heap pos.
Proof.
  induction f1 as [| f1 IH]; intros [| f2] heap pos H1 H2;
    cbn [heapq._siftup_loop]; try done.
  - by rewrite decide_False by lia.
  - by rewrite decide_False by lia.
  - case_decide; [| done].
    set (childpos := match heap !! (2 * pos + 1)%nat, heap !! (2 * pos + 1 + 1)%nat with
                     | Some c, Some r => if negb (lt c r) then (2 * pos + 1 + 1)%nat
                                         else (2 * pos + 1)%nat
                     | _, _ => (2 * pos + 1)%nat
                     end).
    assert (pos < childpos)%nat by (subst childpos; repeat case_match; lia).
    destruct (heap !! childpos); [| done].
    apply IH; rewrite length_insert; lia.
Qed.

(** ** Trees *)

Lemma HeapNode_tree_ind (P : HeapNode → Prop) :
  (∀ c f l r, from_option P True l → from_option P True r → P (mkHeapNode c f l r)) →
  ∀ n, P n.
Proof.
  intros H. fix IH 1. intros [c f l r]. apply H.
  - destruct l as [l' |]; [apply IH | exact I].
  - destruct r as [r' |]; [apply IH | exact I].
Qed.

Lemma make_codes_node_spec root : ∀ current_code self,
  make_codes_node root current_code self
  = {| heap := heap self;
       codes := foldl (λ m p, <[p.1 := p.2]> m) (codes self) (leaf_codes root current_code);
       reverse_mapping :=
         foldl (λ m p, <[p.2 := p.1]> m) (reverse_mapping self)
               (leaf_codes root current_code) |}.
Proof.
  induction root as [c f l r IHl IHr] using HeapNode_tree_ind.
  intros current_code self. destruct c as [c |]; [done |].
  cbn [make_codes_node leaf_codes]. rewrite !foldl_app.
  destruct l as [l' |], r as [r' |]; simpl in *;
    rewrite ?IHl, ?IHr; by try destruct self.
Qed.

(** Every path starts with the code the traversal started from. *)
Lemma leaf_codes_extend root : ∀ current_code c code,
  (c, code) ∈ leaf_codes root current_code → current_code `prefix_of` code.
Proof.
  induction root as [ch f l r IHl IHr] using HeapNode_tree_ind.
  intros current_code c code. destruct ch as [ch |]; cbn [leaf_codes].
  - intros [= -> ->]%list_elem_of_singleton. done.
  - intros [Hin | Hin]%elem_of_app.
    + destruct l as [l' |]; [| by apply elem_of_nil in Hin].
      apply IHl in Hin. by eapply prefix_app_l.
    + destruct r as [r' |]; [| by apply elem_of_nil in Hin].
      apply IHr in Hin. by eapply prefix_app_l.
Qed.

(** Two paths, one through the left child and one through the right
    child, are not prefixes of each other. *)
Lemma branches_incomparable (current_code p q : str) :
  current_code ++ ["0"%char] `prefix_of` p →
  current_code ++ ["1"%char] `prefix_of` q →
  ¬ p `prefix_of` q ∧ ¬ q `prefix_of` p.
Proof.
  intros [p' ->] [q' ->]. rewrite <- !app_assoc.
  split; intros [k Hk]; rewrite <- !app_assoc in Hk;
    apply app_inv_head in Hk; discriminate Hk.
Qed.

(** The paths of a tree are prefix-free: a path that is a prefix of
    another one is the path of the same leaf. *)
Lemma leaf_codes_prefix_free root : ∀ current_code a p b q,
  (a, p) ∈ leaf_codes root current_code →
  (b, q) ∈ leaf_codes root current_code →
  p `prefix_of` q → a = b ∧ p = q.
Proof.
  induction root as [ch f l r IHl IHr] using HeapNode_tree_ind.
  intros current_code a p b q. destruct ch as [ch |]; cbn [leaf_codes].
  - by intros [= -> ->]%list_elem_of_singleton [= -> ->]%list_elem_of_singleton.
  - intros [Ha | Ha]%elem_of_app [Hb | Hb]%elem_of_app Hpre.
    + destruct l as [l' |]; [| by apply elem_of_nil in Ha]. by eapply IHl.
    + destruct l as [l' |]; [| by apply elem_of_nil in Ha].
      destruct r as [r' |]; [| by apply elem_of_nil in Hb].
      apply leaf_codes_extend in Ha, Hb.
      by destruct (branches_incomparable _ _ _ Ha Hb).
    + destruct l as [l' |]; [| by apply elem_of_nil in Hb].
      destruct r as [r' |]; [| by apply elem_of_nil in Ha].
      apply leaf_codes_extend in Ha, Hb.
      by destruct (branches_incomparable _ _ _ Hb Ha).
    + destruct r as [r' |]; [| by apply elem_of_nil in Ha]. by eapply IHr.
Qed.

Lemma leaf_codes_chars root : ∀ code1 code2,
  (leaf_codes root code1).*1 = (leaf_codes root code2).*1.
Proof.
  induction root as [ch f l r IHl IHr] using HeapNode_tree_ind.
  intros code1 code2. destruct ch as [ch |]; cbn [leaf_codes]; [done |].
  rewrite !fmap_app. f_equal.
  - destruct l; [apply IHl | done].
  - destruct r; [apply IHr | done].
Qed.


(** ** Building the tree *)

Lemma heap_chars_merged f (node1 node2 : HeapNode) (h : list HeapNode) :
  heap_chars (mkHeapNode None f (Some node1) (Some node2) :: h)
  = heap_chars (node1 :: node2 :: h).
Proof.
  unfold heap_chars. rewrite !bind_cons. cbn [leaf_codes].
  rewrite fmap_app, <- app_assoc.
  by rewrite (leaf_codes_chars node1 _ []), (leaf_codes_chars node2 _ []).
Qed.

#[global] Instance heap_chars_Permutation : Proper ((≡ₚ) ==> (≡ₚ)) heap_chars.
Proof. intros h1 h2 Hp. unfold heap_chars. by rewrite Hp. Qed.

(** [merge_nodes] ends, with one tree that holds the characters of all
    the nodes it started from; that tree is not a leaf when there were
    at least two nodes. *)
Lemma merge_loop_spec fuel : ∀ h,
  h ≠ [] → (length h ≤ S fuel)%nat →
  ∃ root, merge_loop fuel h = Some (Ok [root])
          ∧ heap_chars [root] ≡ₚ heap_chars h
          ∧ ((2 ≤ length h)%nat → char root = None).
Proof.
  induction fuel as [| fuel IH]; intros h Hne Hlen.
  - destruct h as [| root [| ? ?]]; [done | | simpl in Hlen; lia].
    exists root. repeat split; [done |]. simpl. lia.
  - destruct h as [| node [| node' h]]; [done | |].
    { exists node. repeat split; [done |]. simpl. lia. }
    cbn [merge_loop].
    destruct (heappop_Permutation HeapNode_lt (node :: node' :: h))
      as (node1 & h1 & -> & Hp1); [done |].
    assert (h1 ≠ []) as Hne1.
    { intros ->. apply Permutation_length in Hp1. simpl in Hp1. lia. }
    destruct (heappop_Permutation HeapNode_lt h1 Hne1) as (node2 & h2 & -> & Hp2).
    set (merged := mkHeapNode None (freq node1 + freq node2) (Some node1) (Some node2)).
    pose proof (heappush_Permutation HeapNode_lt h2 merged) as Hp3.
    assert (length (heapq.heappush HeapNode_lt h2 merged) = S (length h)) as Hlen3.
    { apply Permutation_length in Hp1, Hp2, Hp3. cbn [length] in *. lia. }
    destruct (IH (heapq.heappush HeapNode_lt h2 merged)) as (root & Hloop & Hchars & Hint).
    { intros Heq. rewrite Heq in Hlen3. simpl in Hlen3. lia. }
    { simpl in Hlen. lia. }
    exists root. split; [done |]. split.
    + rewrite Hchars, Hp3. unfold merged. rewrite heap_chars_merged.
      by rewrite Hp1, Hp2.
    + intros _. destruct h as [| node'' h].
      * assert (h2 = []) as ->.
        { apply Permutation_length in Hp1, Hp2. cbn [length] in *.
          destruct h2; [done | cbn [length] in *; lia]. }
        apply Permutation_singleton_r in Hp3. rewrite Hp3 in Hloop.
        destruct fuel; simpl in Hloop; by injection Hloop as <-.
      * apply Hint. rewrite Hlen3. simpl. lia.
Qed.

Lemma merge_loop_terminates (h : list HeapNode) :
  ∃ h', merge_loop (length h) h = Some (Ok h') ∧ (length h' ≤ 1)%nat.
Proof.
  destruct h as [| node h]; [exists []; split; [done | simpl; lia] |].
  destruct (merge_loop_spec (length (node :: h)) (node :: h)) as (root & -> & _);
    [done | lia |].
  exists [root]. split; [done | simpl; lia].
Qed.

Lemma make_heap_loop_Permutation (frequency : odict) : ∀ h,
  foldl (λ h '(key, f), heapq.heappush HeapNode_lt h (new_HeapNode (Some key) f))
        h frequency
  ≡ₚ h ++ ((λ '(key, f), new_HeapNode (Some key) f) <$> frequency).
Proof.
  induction frequency as [| [key f] frequency IH]; intros h; simpl.
  - by rewrite app_nil_r.
  - rewrite IH, heappush_Permutation. apply Permutation_middle.
Qed.

Lemma heap_chars_leaves (frequency : odict) :
  heap_chars ((λ '(key, f), new_HeapNode (Some key) f) <$> frequency) = frequency.*1.
Proof.
  unfold heap_chars. induction frequency as [| [key f] frequency IH]; [done |].
  rewrite fmap_cons, bind_cons, IH. done.
Qed.

(** What the code table is after [make_heap], [merge_nodes] and
    [make_codes] on a fresh object: the paths of one tree whose leaves
    are the keys of the frequency table. *)
Lemma build_codes_spec (frequency : odict) :
  frequency ≠ [] →
  ∃ root,
    build_codes frequency init
    = Ok (tt, {| heap := [];
                 codes := foldl (λ m p, <[p.1 := p.2]> m) ∅ (leaf_codes root []);
                 reverse_mapping :=
                   foldl (λ m p, <[p.2 := p.1]> m) ∅ (leaf_codes root []) |})
    ∧ (leaf_codes root []).*1 ≡ₚ frequency.*1
    ∧ ((2 ≤ length frequency)%nat → char root = None).
Proof.
  intros Hne.
  pose proof (make_heap_loop_Permutation frequency []) as Hheap.
  set (h0 := foldl (λ h '(key, f), heapq.heappush HeapNode_lt h (new_HeapNode (Some key) f))
                   [] frequency) in Hheap.
  rewrite app_nil_l in Hheap.
  assert (length h0 = length frequency) as Hlen0.
  { apply Permutation_length in Hheap. by rewrite length_fmap in Hheap. }
  destruct (merge_loop_spec (length h0) h0) as (root & Hloop & Hchars & Hint).
  { intros Heq. rewrite Heq in Hlen0. by destruct frequency. }
  { lia. }
  exists root. split; [| split].
  - unfold build_codes, mbind, M_bind, make_heap, merge_nodes. cbn [heap init].
    fold h0. rewrite Hloop. unfold make_codes. cbn [heap codes reverse_mapping].
    change (heapq.heappop HeapNode_lt [root]) with (Ok (root, @nil HeapNode)).
    cbn [make_codes_helper]. by rewrite make_codes_node_spec.
  - rewrite Hheap, heap_chars_leaves in Hchars.
    unfold heap_chars in Hchars. by rewrite bind_singleton in Hchars.
  - rewrite <- Hlen0. apply Hint.
Qed.

(** ** Dictionaries filled by a loop of assignments *)

Section fold_insert.
Context `{Countable K} {V E : Type} (kf : E → K) (vf : E → V).

Lemma fold_insert_lookup_inv (L : list E) : ∀ (m : gmap K V) k v,
  foldl (λ m p, <[kf p := vf p]> m) m L !! k = Some v →
  (∃ p, p ∈ L ∧ kf p = k ∧ vf p = v) ∨ m !! k = Some v.
Proof.
  induction L as [| p L IH]; intros m k v; simpl; [by right |].
  intros [(p' & Hin & Hk & Hv) | Hm]%IH.
  - left. exists p'. split; [by right | done].
  - apply lookup_insert_Some in Hm as [[<- <-] | [_ Hm]]; [| by right].
    left. exists p. split; [by left | done].
Qed.

Lemma fold_insert_lookup_is_Some (L : list E) : ∀ (m : gmap K V) k,
  (∃ p, p ∈ L ∧ kf p = k) ∨ is_Some (m !! k) →
  is_Some (foldl (λ m p, <[kf p := vf p]> m) m L !! k).
Proof.
  induction L as [| p L IH]; intros m k; simpl.
  - intros [(p & Hin & _) | Hm]; [by apply elem_of_nil in Hin | done].
  - intros [(p' & Hin & Hk) | Hm]; apply IH.
    + apply elem_of_cons in Hin as [-> | Hin].
      * right. rewrite Hk. by rewrite lookup_insert_eq.
      * left. by exists p'.
    + right. rewrite lookup_insert_is_Some. destruct (decide (kf p = k)); auto.
Qed.

End fold_insert.

(** C7. On a fresh object and for a non-empty frequency table,
    [make_heap], [merge_nodes] and [make_codes] return, every key of
    the table and nothing else gets a code, and for two distinct
    characters the code of the first is not a prefix of the code of
    the second. *)
Theorem codes_prefix_free (frequency : odict) :
  frequency ≠ [] →
  ∃ self,
    build_codes frequency init = Ok (tt, self)
    ∧ (∀ c, c ∈ frequency.*1 ↔ is_Some (codes self !! c))
    ∧ ∀ a b ca cb,
        a ≠ b → codes self !! a = Some ca → codes self !! b = Some cb →
        ¬ ca `prefix_of` cb.
Proof.
  intros Hne. destruct (build_codes_spec frequency Hne) as (root & -> & Hkeys & _).
  eexists. split; [done |]. cbn [codes]. split.
  - intros c. rewrite <- Hkeys. split.
    + intros ([c' code] & -> & Hin)%list_elem_of_fmap.
      apply fold_insert_lookup_is_Some. left. by exists (c', code).
    + intros [code [([c' code'] & Hin & Hk & Hv) | Hm]%fold_insert_lookup_inv];
        [| by rewrite lookup_empty in Hm].
      simpl in Hk. subst c'. apply list_elem_of_fmap. by exists (c, code').
  - intros a b ca cb Hab Ha Hb Hpre.
    apply fold_insert_lookup_inv in Ha as [([a' ca'] & Ha & Hk & Hv) | Hm];
      [| by rewrite lookup_empty in Hm].
    apply fold_insert_lookup_inv in Hb as [([b' cb'] & Hb & Hk' & Hv') | Hm];
      [| by rewrite lookup_empty in Hm].
    simpl in *. subst.
    by destruct (leaf_codes_prefix_free _ _ _ _ _ _ Ha Hb Hpre).
Qed.

Lemma codes_prefix_free_witness :
  ∃ self,
    build_codes (make_frequency_dict (py "aaabbc")) init = Ok (tt, self)
    ∧ (∀ c, c ∈ (make_frequency_dict (py "aaabbc")).*1 ↔ is_Some (codes self !! c))
    ∧ ∀ a b ca cb,
        a ≠ b → codes self !! a = Some ca → codes self !! b = Some cb →
        ¬ ca `prefix_of` cb.
Proof.
  apply (codes_prefix_free (make_frequency_dict (py "aaabbc"))).
  discriminate.
Defined.

Lemma single_symbol_codes (c : ascii) (f : Z) :
  ∃ self,
    build_codes [(c, f)] init = Ok (tt, self)
    ∧ codes self = {[ c := [] ]}
    ∧ reverse_mapping self = {[ [] := c ]}.
Proof. eexists. repeat split. Qed.

(** C3 is not what the code does.  The tree of a table with one key is
    a leaf, [make_codes] starts the traversal with the empty code and
    the leaf takes it: the character is given the empty bit-string,
    not a one-bit code. *)
Theorem single_symbol_code_is_empty (c : ascii) (f : Z) :
  ∃ self,
    build_codes [(c, f)] init = Ok (tt, self)
    ∧ codes self !! c = Some []
    ∧ reverse_mapping self !! [] = Some c.
Proof.
  destruct (single_symbol_codes c f) as (self & Hb & Hc & Hr).
  exists self. rewrite Hc, Hr. by rewrite !lookup_singleton_eq.
Qed.

(** C4 is not what the code does.  On the empty text the heap is
    empty, [merge_nodes] leaves it empty and the [heappop] of
    [make_codes] raises [IndexError]: [compress] returns no payload. *)
Theorem compress_empty_raises :
  make_frequency_dict [] = []
  ∧ build_codes [] init = Raise IndexError
  ∧ compress [] init = Raise IndexError.
Proof. repeat split. Qed.

(** ** From the encoded text to the payload and back *)

Lemma remove_padding_pad_encoded_text (B : str) :
  remove_padding (pad_encoded_text B) = Ok B.
Proof.
  pose proof (extra_padding_range B) as Hr.
  destruct (format_08b_pad _ Hr) as (Hl & _ & Hi).
  unfold remove_padding, pad_encoded_text.
  change (slice_to ?s 8) with (take 8 s).
  rewrite take_app_length' by done. rewrite Hi.
  unfold slice_from. change (Z.to_nat 8) with 8%nat.
  rewrite drop_app_length' by done.
  unfold slice_to.
  replace (-1 * extra_padding_of B <? 0) with true by (symmetry; apply Z.ltb_lt; lia).
  rewrite len_app. unfold len at 2. rewrite length_replicate.
  replace (Z.to_nat (len B + Z.of_nat (Z.to_nat (extra_padding_of B))
                     + -1 * extra_padding_of B))
    with (length B) by (unfold len; lia).
  by rewrite take_app_length.
Qed.


(** [compress] and [decompress], step by step. *)
Lemma compress_eq (text : str) (self : HuffmanCoding) :
  compress text self
  = match build_codes (make_frequency_dict text) self with
    | Raise e => Raise e
    | Ok (_, self') =>
        match get_encoded_loop (codes self') [] text with
        | Raise e => Raise e
        | Ok encoded_text =>
            match get_byte_array (pad_encoded_text encoded_text) with
            | Raise e => Raise e
            | Ok b => Ok (b, self')
            end
        end
    end.
Proof.
  unfold compress, build_codes, mbind, M_bind, get_encoded_text, lift.
  destruct (make_heap _ self) as [[[] self1] |]; [| done].
  destruct (merge_nodes self1) as [[[] self2] |]; [| done].
  destruct (make_codes self2) as [[[] self3] |]; [| done].
  destruct (get_encoded_loop _ _ _); [| done].
  by destruct (get_byte_array _).
Qed.

Lemma decompress_eq (input : list Z) (self : HuffmanCoding) :
  decompress input self
  = match remove_padding (read_bits input) with
    | Raise e => Raise e
    | Ok encoded_text =>
        Ok ((decode_loop (reverse_mapping self) ([], []) encoded_text).2, self)
    end.
Proof.
  unfold decompress, mbind, M_bind, lift, decode_text.
  by destruct (remove_padding _).
Qed.

(** ** Texts of one repeated character *)

Lemma count_character_repeat (c : ascii) (k : nat) : ∀ n,
  foldl (λ frequency character, count_character character frequency)
        [(c, n)] (replicate k c)
  = [(c, n + Z.of_nat k)].
Proof.
  induction k as [| k IH]; intros n; cbn [replicate foldl count_character].
  - do 2 f_equal. lia.
  - rewrite decide_True by done. rewrite IH. do 2 f_equal. lia.
Qed.

Lemma make_frequency_dict_repeat (c : ascii) (k : nat) :
  make_frequency_dict (replicate (S k) c) = [(c, Z.of_nat (S k))].
Proof.
  unfold make_frequency_dict. cbn [replicate foldl count_character].
  rewrite count_character_repeat. do 2 f_equal. lia.
Qed.

Lemma get_encoded_loop_empty_code (c : ascii) (k : nat) :
  get_encoded_loop {[ c := [] ]} [] (replicate k c) = Ok [].
Proof.
  induction k as [| k IH]; [done |].
  cbn [replicate get_encoded_loop]. by rewrite lookup_singleton_eq.
Qed.

(** C1 is not what the code does on a text of one repeated
    character.  Its only code is the empty bit-string, the encoded
    text is empty whatever the length of the text, the payload is the
    bytes 8 and 0, and decoding returns the empty text. *)
Theorem round_trip_single_symbol (c : ascii) (k : nat) :
  (∃ self, compress (replicate (S k) c) init = Ok ([8; 0], self))
  ∧ round_trip (replicate (S k) c) = Ok []
  ∧ round_trip (replicate (S k) c) ≠ Ok (replicate (S k) c).
Proof.
  assert (∃ self, compress (replicate (S k) c) init = Ok ([8; 0], self)
                  ∧ reverse_mapping self = {[ [] := c ]}) as (self & Hc & Hrm).
  { rewrite compress_eq, make_frequency_dict_repeat.
    destruct (single_symbol_codes c (Z.of_nat (S k))) as (self & -> & Hcodes & Hrm).
    rewrite Hcodes, get_encoded_loop_empty_code.
    by exists self. }
  split; [by exists self |].
  assert (round_trip (replicate (S k) c) = Ok []) as Hrt.
  { unfold round_trip, mbind, M_bind. rewrite Hc, decompress_eq. done. }
  split; [done |]. by rewrite Hrt.
Qed.

(** ** Texts of at least two characters *)

Lemma count_character_keys (c : ascii) (frequency : odict) k :
  k ∈ (count_character c frequency).*1 ↔ k = c ∨ k ∈ frequency.*1.
Proof.
  induction frequency as [| [k' v] frequency IH]; simpl.
  - rewrite list_elem_of_singleton, elem_of_nil. tauto.
  - case_decide as Hk; simpl; rewrite !elem_of_cons.
    + subst k'. tauto.
    + rewrite IH. tauto.
Qed.

Lemma make_frequency_dict_keys (text : str) k :
  k ∈ (make_frequency_dict text).*1 ↔ k ∈ text.
Proof.
  unfold make_frequency_dict.
  assert (∀ frequency,
    k ∈ (foldl (λ frequency character, count_character character frequency)
               frequency text).*1
    ↔ k ∈ text ∨ k ∈ frequency.*1) as Hgen.
  { induction text as [| c text IH]; intros frequency; simpl.
    - rewrite elem_of_nil. tauto.
    - rewrite IH, count_character_keys, elem_of_cons. tauto. }
  rewrite Hgen. simpl. rewrite elem_of_nil. tauto.
Qed.

Lemma two_keys (frequency : odict) a b :
  a ∈ frequency.*1 → b ∈ frequency.*1 → a ≠ b → (2 ≤ length frequency)%nat.
Proof.
  destruct frequency as [| [k v] [| [k' v'] frequency]]; simpl.
  - by intros ?%elem_of_nil.
  - intros ->%list_elem_of_singleton ->%list_elem_of_singleton. done.
  - lia.
Qed.

Lemma leaf_codes_bits root : ∀ current_code c code,
  Forall bit current_code →
  (c, code) ∈ leaf_codes root current_code → Forall bit code.
Proof.
  induction root as [ch f l r IHl IHr] using HeapNode_tree_ind.
  intros current_code c code Hbits. destruct ch as [ch |]; cbn [leaf_codes].
  - by intros [= -> ->]%list_elem_of_singleton.
  - intros [Hin | Hin]%elem_of_app.
    + destruct l as [l' |]; [| by apply elem_of_nil in Hin].
      eapply IHl; [| done]. apply Forall_app. split; [done |].
      apply Forall_singleton. by left.
    + destruct r as [r' |]; [| by apply elem_of_nil in Hin].
      eapply IHr; [| done]. apply Forall_app. split; [done |].
      apply Forall_singleton. by right.
Qed.





(** * Further properties of the code *)

From Stdlib Require Import ZifyNat.

(** ** Padding and byte packing, the other way round *)

(** X2.  Padding and removing the padding: on every string, bits or
    not, [remove_padding] gives back what [pad_encoded_text] was given,
    and the padded string is 8 to 15 characters longer. *)
Theorem padding_round_trip (B : str) :
  remove_padding (pad_encoded_text B) = Ok B
  ∧ len (pad_encoded_text B) = 8 + len B + extra_padding_of B
  ∧ 9 + len B ≤ len (pad_encoded_text B) ≤ 16 + len B.
Proof.
  pose proof (extra_padding_range B) as Hr.
  assert (len (pad_encoded_text B) = 8 + len B + extra_padding_of B) as Hl.
  { unfold len. rewrite pad_encoded_text_length. lia. }
  split; [apply remove_padding_pad_encoded_text |]. split; [done | lia].
Qed.

Lemma byte_bits_int2 (v : Z) :
  byte_value v →
  length (byte_bits v) = 8%nat ∧ Forall bit (byte_bits v)
  ∧ int2 (byte_bits v) = Some v.
Proof.
  intros Hv.
  assert (Forall (λ v, length (byte_bits v) = 8%nat ∧ Forall bit (byte_bits v)
                       ∧ int2 (byte_bits v) = Some v) (seqZ 0 256)) as Hall.
  { apply (bool_decide_unpack _). by vm_compute. }
  rewrite Forall_forall in Hall. apply Hall, elem_of_seqZ. unfold byte_value in Hv. lia.
Qed.

Lemma read_bits_app (input1 input2 : list Z) :
  read_bits (input1 ++ input2) = read_bits input1 ++ read_bits input2.
Proof.
  unfold read_bits at 1. rewrite foldl_app. fold (read_bits input1).
  apply read_bits_from.
Qed.

Lemma read_bits_length (input : list Z) :
  Forall byte_value input → length (read_bits input) = (8 * length input)%nat.
Proof.
  induction 1 as [| v input Hv _ IH]; [done |].
  rewrite read_bits_cons, length_app, IH.
  destruct (byte_bits_int2 v Hv) as (-> & _). simpl. lia.
Qed.

Lemma read_bits_bits (input : list Z) :
  Forall byte_value input → Forall bit (read_bits input).
Proof.
  induction 1 as [| v input Hv _ IH]; [constructor |].
  rewrite read_bits_cons. apply Forall_app. split; [| done].
  by destruct (byte_bits_int2 v Hv) as (_ & ? & _).
Qed.

Lemma byte_loop_read_bits (input : list Z) : ∀ done b,
  Forall byte_value done → Forall byte_value input →
  byte_loop (read_bits (done ++ input))
            ((λ k, 8 * Z.of_nat k) <$> seq (length done) (length input)) b
  = Ok (b ++ input).
Proof.
  induction input as [| v input IH]; intros done b Hdone Hinput.
  - by rewrite !app_nil_r.
  - apply Forall_cons in Hinput as [Hv Hinput].
    destruct (byte_bits_int2 v Hv) as (Hl & _ & Hi).
    cbn [length]. change (seq (length done) (S (length input)))
      with (length done :: seq (S (length done)) (length input)).
    rewrite fmap_cons. cbn [byte_loop]. unfold slice.
    replace (Z.to_nat (8 * Z.of_nat (length done) + 8 - 8 * Z.of_nat (length done)))
      with 8%nat by lia.
    replace (Z.to_nat (8 * Z.of_nat (length done))) with (8 * length done)%nat by lia.
    rewrite read_bits_app, read_bits_cons.
    rewrite <- (read_bits_length done Hdone), drop_app_length.
    rewrite take_app_length' by done. rewrite Hi.
    rewrite decide_True by done.
    rewrite <- read_bits_cons, <- read_bits_app.
    replace (done ++ v :: input) with ((done ++ [v]) ++ input) by by rewrite <- app_assoc.
    replace (S (length done)) with (length (done ++ [v]))
      by (rewrite length_app; simpl; lia).
    rewrite IH; [by rewrite <- app_assoc | | done].
    apply Forall_app. split; [done |]. by apply Forall_singleton.
Qed.

(** X3.  Bytes to bits and back.  The bits [decompress] reads from a
    list of bytes are eight binary digits per byte, and packing them
    with [get_byte_array] gives the bytes back. *)
Theorem bits_round_trip (input : list Z) :
  Forall byte_value input →
  len (read_bits input) = 8 * len input
  ∧ Forall bit (read_bits input)
  ∧ get_byte_array (read_bits input) = Ok input.
Proof.
  intros Hinput. pose proof (read_bits_length input Hinput) as Hl.
  split; [unfold len; lia |]. split; [by apply read_bits_bits |].
  unfold get_byte_array. rewrite decide_False by (unfold len; lia).
  replace (range8 (len (read_bits input)))
    with ((λ k, 8 * Z.of_nat k) <$> seq 0 (length input)).
  - by apply (byte_loop_read_bits input [] []).
  - unfold range8, len. do 2 f_equal. lia.
Qed.

Lemma bits_round_trip_witness :
  len (read_bits [7; 31; 0]) = 8 * len [7; 31; 0]
  ∧ Forall bit (read_bits [7; 31; 0])
  ∧ get_byte_array (read_bits [7; 31; 0]) = Ok [7; 31; 0].
Proof.
  apply (bits_round_trip [7; 31; 0]).
  by apply (bool_decide_unpack _).
Defined.

(** ** [decompress] on any payload *)

(** X4.  [decompress] raises [ValueError] on the empty payload, the
    header being [int("", 2)].  On any other payload of bytes it
    returns: the first byte is the padding count, the bits of the other
    bytes without their last [count] bits (without any bit when the
    count is 0) are decoded, and the object is left as it was. *)
Theorem decompress_payload (input : list Z) (self : HuffmanCoding) :
  Forall byte_value input →
  match input with
  | [] => decompress input self = Raise ValueError
  | count :: body =>
      remove_padding (read_bits input) = Ok (slice_to (read_bits body) (-1 * count))
      ∧ decompress input self
        = decode_text (slice_to (read_bits body) (-1 * count)) self
      ∧ ∃ text, decompress input self = Ok (text, self)
  end.
Proof.
  intros Hinput. destruct input as [| count body]; [done |].
  apply Forall_cons in Hinput as [Hcount Hbody].
  destruct (byte_bits_int2 count Hcount) as (Hl & _ & Hi).
  assert (remove_padding (read_bits (count :: body))
          = Ok (slice_to (read_bits body) (-1 * count))) as Hrm.
  { unfold remove_padding. rewrite read_bits_cons.
    change (slice_to ?s 8) with (take 8 s).
    rewrite take_app_length' by done. rewrite Hi.
    unfold slice_from. change (Z.to_nat 8) with 8%nat.
    by rewrite drop_app_length' by done. }
  split; [done |]. rewrite decompress_eq, Hrm. split; [done |]. by eexists.
Qed.

Lemma decompress_payload_witness :
  remove_padding (read_bits [7; 31; 0]) = Ok (slice_to (read_bits [31; 0]) (-1 * 7))
  ∧ decompress [7; 31; 0] init
    = decode_text (slice_to (read_bits [31; 0]) (-1 * 7)) init
  ∧ ∃ text, decompress [7; 31; 0] init = Ok (text, init).
Proof.
  apply (decompress_payload [7; 31; 0] init).
  by apply (bool_decide_unpack _).
Defined.

(** ** The frequency dictionary *)

Lemma occurrences_nil c : occurrences c [] = 0.
Proof. done. Qed.

Lemma occurrences_snoc c (text : str) c' :
  occurrences c (text ++ [c']) = occurrences c text + (if decide (c' = c) then 1 else 0).
Proof.
  unfold occurrences. rewrite filter_app, len_app. f_equal.
  rewrite filter_cons, filter_nil. by case_decide.
Qed.

Lemma occurrences_pos c (text : str) : c ∈ text ↔ 0 < occurrences c text.
Proof.
  unfold occurrences, len. split.
  - intros Hin. assert (c ∈ filter (λ c', c' = c) text) as Hf
      by (by apply list_elem_of_filter).
    destruct (filter _ text); [by apply elem_of_nil in Hf | simpl; lia].
  - intros Hpos. destruct (filter (λ c', c' = c) text) as [| c' l] eqn:Hf;
      [simpl in Hpos; lia |].
    assert (c' ∈ filter (λ c', c' = c) text) as Hin by (rewrite Hf; by left).
    apply list_elem_of_filter in Hin as [-> Hin]. done.
Qed.

Lemma count_character_NoDup (c : ascii) (frequency : odict) :
  NoDup frequency.*1 → NoDup (count_character c frequency).*1.
Proof.
  induction frequency as [| [k v] frequency IH]; simpl.
  - intros _. apply NoDup_singleton.
  - intros [Hk Hnd]%NoDup_cons. case_decide as Hkc; simpl.
    + by apply NoDup_cons.
    + apply NoDup_cons. split; [| by apply IH].
      rewrite count_character_keys. intros [-> | Hin]; done.
Qed.


Lemma count_character_entries (c : ascii) (frequency : odict) k v :
  NoDup frequency.*1 →
  (k, v) ∈ count_character c frequency
  ↔ (k ≠ c ∧ (k, v) ∈ frequency)
    ∨ (k = c ∧ ((c, v - 1) ∈ frequency ∨ ((c ∉ frequency.*1) ∧ v = 1))).
Proof.
  induction frequency as [| [k' v'] frequency IH]; simpl.
  - intros _. rewrite list_elem_of_singleton. rewrite !elem_of_nil. 
    split.
    + intros [= -> ->]. right. split; [done |]. right. split; [| done].
      tauto.
    + intros [[_ []] | [-> [[] | [_ ->]]]]. done.
  - intros [Hk' Hnd]%NoDup_cons. specialize (IH Hnd).
    assert (∀ v, (k', v) ∉ frequency) as Hk'v.
    { intros v0 Hin. apply Hk'. apply list_elem_of_fmap. by exists (k', v0). }
    case_decide as Hkc; rewrite !elem_of_cons.
    + subst k'. split.
      * intros [[= -> ->] | Hin].
        -- right. split; [done |]. left. left. f_equal. lia.
        -- left. split; [| by right]. intros ->. by eapply Hk'v.
      * intros [[Hne [[= -> ->] | Hin]] | [-> [[[= Hv] | Hin] | [Hn _]]]].
        -- done.
        -- by right.
        -- left. f_equal. lia.
        -- by apply Hk'v in Hin.
        -- exfalso. apply Hn. by left.
    + rewrite IH. split.
      * intros [[= -> ->] | [[Hne Hin] | [-> [Hin | [Hn ->]]]]].
        -- left. split; [done | by left].
        -- left. split; [done | by right].
        -- right. split; [done |]. left. by right.
        -- right. split; [done |]. right. split; [| done].
           intros [Heq | Hin]; [congruence | done].
      * intros [[Hne [[= -> ->] | Hin]] | [-> [[[= Heq _] | Hin] | [Hn ->]]]].
        -- by left.
        -- right. left. done.
        -- done.
        -- right. right. split; [done |]. by left.
        -- right. right. split; [done |]. right. split; [| done].
           intros Hin. apply Hn. by right.
Qed.

Lemma make_frequency_dict_loop (text : str) : ∀ (seen : str) (frequency : odict),
  NoDup frequency.*1 →
  (∀ k v, (k, v) ∈ frequency ↔ k ∈ seen ∧ v = occurrences k seen) →
  let frequency' :=
    foldl (λ frequency character, count_character character frequency)
          frequency text in
  NoDup frequency'.*1
  ∧ ∀ k v, (k, v) ∈ frequency' ↔ k ∈ seen ++ text ∧ v = occurrences k (seen ++ text).
Proof.
  induction text as [| c text IH]; intros seen frequency Hnd Hent; cbn [foldl].
  - by rewrite app_nil_r.
  - replace (seen ++ c :: text) with ((seen ++ [c]) ++ text) by by rewrite <- app_assoc.
    apply IH; [by apply count_character_NoDup |].
    intros k v. rewrite count_character_entries by done.
    rewrite !Hent, occurrences_snoc, elem_of_app, list_elem_of_singleton.
    assert (c ∉ frequency.*1 ↔ c ∉ seen) as ->.
    { split; intros Hn Hin; apply Hn.
      - apply list_elem_of_fmap. exists (c, occurrences c seen).
        split; [done |]. by apply Hent.
      - apply list_elem_of_fmap in Hin as ([k' v'] & -> & Hin).
        by apply Hent in Hin as [? _]. }
    assert ((c ∈ seen ∧ 0 < occurrences c seen)
            ∨ ((c ∉ seen) ∧ occurrences c seen = 0)) as Hc.
    { pose proof (occurrences_pos c seen) as Hpos.
      pose proof (len_nonneg (filter (λ c', c' = c) seen)) as Hge.
      fold (occurrences c seen) in Hge.
      destruct (decide (c ∈ seen)) as [Hin | Hn].
      - left. split; [done | by apply Hpos].
      - right. split; [done |].
        destruct (decide (0 < occurrences c seen)) as [Hlt | Hle]; [| lia].
        by apply Hpos in Hlt. }
    case_decide as Hck; [subst k |]; split.
    + intros [[Hne _] | [_ [[Hin Hv] | [Hn ->]]]]; [done | |].
      * split; [by left | lia].
      * split; [by right |]. destruct Hc as [[? _] | [_ ->]]; [done | lia].
    + intros [_ ->]. right. split; [done |].
      destruct Hc as [[Hin Hlt] | [Hn Hz]].
      * left. split; [done | lia].
      * right. split; [done |]. lia.
    + intros [[Hne [Hin ->]] | [-> _]]; [| done]. split; [by left | lia].
    + intros [[Hin | ->] ->]; [| done]. left. split; [done |].
      split; [done | lia].
Qed.

(** X5.  [make_frequency_dict] counts: the keys of the dictionary are
    the characters of the text, each once, and the value of a key is
    the number of times the character occurs in the text. *)
Theorem make_frequency_dict_counts (text : str) :
  NoDup (make_frequency_dict text).*1
  ∧ ∀ c f, (c, f) ∈ make_frequency_dict text ↔ c ∈ text ∧ f = occurrences c text.
Proof.
  apply (make_frequency_dict_loop text [] []).
  - apply NoDup_nil_2.
  - intros k v. rewrite !elem_of_nil. tauto.
Qed.

(** ** Encoding and decoding with any table *)

(** The bits of a key of [reverse_mapping] of which no other key is a
    prefix decode to its character. *)
Lemma decode_loop_key (rm : gmap str ascii) (p : str) (c : ascii) :
  rm !! p = Some c → p ≠ [] →
  (∀ q, is_Some (rm !! q) → q `prefix_of` p → q = p) →
  ∀ decoded, decode_loop rm ([], decoded) p = ([], decoded ++ [c]).
Proof.
  intros Hp Hne Hpf decoded.
  destruct (last p) as [b |] eqn:Hlast; [| by apply last_None in Hlast].
  apply last_Some in Hlast as [p' ->].
  rewrite decode_loop_app, decode_loop_unmatched.
  - unfold decode_loop. cbn [foldl]. unfold decode_step. cbn [fst snd].
    by rewrite app_nil_l, Hp.
  - intros q Hq Hpre. rewrite app_nil_l.
    destruct (rm !! q) as [c' |] eqn:Hc'; [| done]. exfalso.
    rewrite (Hpf q) in Hpre; [| by eexists | by apply prefix_app_r].
    by apply prefix_snoc_not in Hpre.
Qed.

(** X6.  Encoding then decoding with any pair of tables.  If every
    character of the text has a non-empty code that [reverse_mapping]
    maps back to it, and no key of [reverse_mapping] is a prefix of
    another key, then [get_encoded_text] returns and [decode_text]
    gives the text back from its result; neither changes the object. *)
Theorem encode_decode_round_trip (text : str) (self : HuffmanCoding) :
  (∀ c, c ∈ text →
        ∃ p, codes self !! c = Some p ∧ p ≠ []
             ∧ reverse_mapping self !! p = Some c) →
  (∀ p q, is_Some (reverse_mapping self !! p) →
          is_Some (reverse_mapping self !! q) → p `prefix_of` q → p = q) →
  ∃ encoded_text,
    get_encoded_text text self = Ok (encoded_text, self)
    ∧ decode_text encoded_text self = Ok (text, self).
Proof.
  intros Hcodes Hpf.
  assert (∀ acc decoded, ∃ encoded_text,
            get_encoded_loop (codes self) acc text = Ok (acc ++ encoded_text)
            ∧ decode_loop (reverse_mapping self) ([], decoded) encoded_text
              = ([], decoded ++ text)) as Hloop.
  { induction text as [| c text IH]; intros acc decoded.
    - exists []. by rewrite !app_nil_r.
    - destruct (Hcodes c) as (p & Hp & Hne & Hrm); [by left |].
      destruct (IH (λ c' Hin, Hcodes c' (list_elem_of_further _ _ _ Hin))
                   (acc ++ p) (decoded ++ [c])) as (rest & Henc & Hdec).
      exists (p ++ rest). cbn [get_encoded_loop]. rewrite Hp, Henc.
      split; [by rewrite app_assoc |].
      rewrite decode_loop_app, (decode_loop_key _ p c), Hdec; try done.
      + by rewrite <- app_assoc.
      + intros q Hq Hpre. apply Hpf; [done | by eexists | done]. }
  destruct (Hloop [] []) as (encoded_text & Henc & Hdec).
  exists encoded_text. unfold get_encoded_text, decode_text.
  by rewrite Henc, Hdec.
Qed.

Lemma encode_decode_round_trip_witness :
  let self := {| heap := [];
                 codes := {[ "a"%char := py "0" ]};
                 reverse_mapping := {[ py "0" := "a"%char ]} |} in
  ∃ encoded_text,
    get_encoded_text (py "aa") self = Ok (encoded_text, self)
    ∧ decode_text encoded_text self = Ok (py "aa", self).
Proof.
  apply (encode_decode_round_trip (py "aa")
           {| heap := []; codes := {[ "a"%char := py "0" ]};
              reverse_mapping := {[ py "0" := "a"%char ]} |}).
  - cbn [codes reverse_mapping]. intros c Hc. exists (py "0").
    assert (c = "a"%char) as ->.
    { apply elem_of_cons in Hc as [-> | Hc]; [done |].
      by apply list_elem_of_singleton in Hc. }
    split; [apply lookup_singleton_eq |]. split; [discriminate |].
    apply lookup_singleton_eq.
  - cbn [reverse_mapping]. intros p q [cp Hp] [cq Hq] _.
    apply lookup_singleton_Some in Hp as [<- _].
    by apply lookup_singleton_Some in Hq as [<- _].
Defined.

(** ** The code table of a text *)

Lemma fold_insert_lookup_iff `{Countable K} {V E : Type} (kf : E → K) (vf : E → V)
    (L : list E) (k : K) (v : V) :
  (∀ e e', e ∈ L → e' ∈ L → kf e = kf e' → vf e = vf e') →
  foldl (λ m e, <[kf e := vf e]> m) (∅ : gmap K V) L !! k = Some v
  ↔ ∃ e, e ∈ L ∧ kf e = k ∧ vf e = v.
Proof.
  intros Hfun. split.
  - intros [He | Hm]%fold_insert_lookup_inv; [done | by rewrite lookup_empty in Hm].
  - intros (e & Hin & <- & <-).
    destruct (fold_insert_lookup_is_Some kf vf L ∅ (kf e)) as [v' Hv'].
    { left. by exists e. }
    rewrite Hv'. f_equal.
    apply fold_insert_lookup_inv in Hv' as [(e' & Hin' & Hk & <-) | Hm];
      [| by rewrite lookup_empty in Hm].
    by apply Hfun.
Qed.

Lemma NoDup_fst_functional {A B} (l : list (A * B)) a b b' :
  NoDup l.*1 → (a, b) ∈ l → (a, b') ∈ l → b = b'.
Proof.
  induction l as [| [a0 b0] l IH]; simpl; [by intros _ ?%elem_of_nil |].
  intros [Hn Hnd]%NoDup_cons [[= -> ->] | Hin]%elem_of_cons [[= Heq] | Hin']%elem_of_cons.
  - done.
  - exfalso. apply Hn. apply list_elem_of_fmap. by exists (a0, b').
  - exfalso. apply Hn. apply list_elem_of_fmap. subst. by exists (a0, b).
  - by apply IH.
Qed.

(** The tables [make_codes] fills from a tree whose leaves hold
    distinct characters are the paths of the tree, read both ways. *)
Lemma tables_of_tree (root : HeapNode) (c : ascii) (p : str) :
  NoDup (leaf_codes root []).*1 →
  (foldl (λ m e, <[e.1 := e.2]> m) (∅ : gmap ascii str) (leaf_codes root []) !! c = Some p
   ↔ (c, p) ∈ leaf_codes root [])
  ∧ (foldl (λ m e, <[e.2 := e.1]> m) (∅ : gmap str ascii) (leaf_codes root []) !! p = Some c
     ↔ (c, p) ∈ leaf_codes root []).
Proof.
  intros Hnd. split.
  - rewrite (fold_insert_lookup_iff fst snd).
    + split; [| intros Hin; by exists (c, p)].
      intros ([c' p'] & Hin & Hk & Hv). simpl in *. by subst.
    + intros [a q] [a' q'] Hin Hin' [= <-]. simpl.
      by eapply NoDup_fst_functional.
  - rewrite (fold_insert_lookup_iff snd fst).
    + split; [| intros Hin; by exists (c, p)].
      intros ([c' p'] & Hin & Hk & Hv). simpl in *. by subst.
    + intros [a q] [a' q'] Hin Hin' [= <-]. simpl.
      by destruct (leaf_codes_prefix_free _ _ _ _ _ _ Hin Hin').
Qed.

(** X7.  The two tables are inverses of each other.  After
    [make_heap], [merge_nodes] and [make_codes] on a fresh object and
    a non-empty frequency table with distinct keys, [codes] maps a
    character to a code exactly when [reverse_mapping] maps that code
    to the character. *)
Theorem tables_inverse (frequency : odict) :
  frequency ≠ [] → NoDup frequency.*1 →
  ∃ self,
    build_codes frequency init = Ok (tt, self)
    ∧ heap self = []
    ∧ ∀ c p, codes self !! c = Some p ↔ reverse_mapping self !! p = Some c.
Proof.
  intros Hne Hnd. destruct (build_codes_spec frequency Hne) as (root & -> & Hkeys & _).
  eexists. split; [done |]. split; [done |]. cbn [codes reverse_mapping].
  intros c p. rewrite <- Hkeys in Hnd.
  destruct (tables_of_tree root c p Hnd) as [-> ->]. done.
Qed.

Lemma tables_inverse_witness :
  ∃ self,
    build_codes (make_frequency_dict (py "aaabbc")) init = Ok (tt, self)
    ∧ heap self = []
    ∧ ∀ c p, codes self !! c = Some p ↔ reverse_mapping self !! p = Some c.
Proof.
  apply (tables_inverse (make_frequency_dict (py "aaabbc"))).
  - discriminate.
  - by apply (bool_decide_unpack _).
Defined.

(** ** What [compress] returns *)

Lemma weighted_length_count (codes : gmap ascii str) (c : ascii) (frequency : odict) :
  weighted_length (count_character c frequency) codes
  = weighted_length frequency codes + len (default [] (codes !! c)).
Proof.
  induction frequency as [| [k v] frequency IH]; simpl; [lia |].
  case_decide as Hk; simpl; [subst k; lia | rewrite IH; lia].
Qed.

(** The table weighs a text as the sum of the lengths of the codes of
    its characters. *)
Lemma weighted_length_text (codes : gmap ascii str) (text : str) :
  weighted_length (make_frequency_dict text) codes
  = foldr (λ c total, len (default [] (codes !! c)) + total) 0 text.
Proof.
  unfold make_frequency_dict.
  assert (∀ frequency,
    weighted_length
      (foldl (λ frequency character, count_character character frequency)
             frequency text) codes
    = weighted_length frequency codes
      + foldr (λ c total, len (default [] (codes !! c)) + total) 0 text) as Hgen.
  { induction text as [| c text IH]; intros frequency; simpl; [lia |].
    rewrite IH, weighted_length_count. lia. }
  rewrite Hgen. simpl. lia.
Qed.

Lemma get_encoded_loop_length (codes : gmap ascii str) (text : str) :
  (∀ c, c ∈ text → ∃ p, codes !! c = Some p ∧ Forall bit p) →
  ∀ acc, ∃ encoded_text,
    get_encoded_loop codes acc text = Ok (acc ++ encoded_text)
    ∧ Forall bit encoded_text
    ∧ len encoded_text
      = foldr (λ c total, len (default [] (codes !! c)) + total) 0 text.
Proof.
  induction text as [| c text IH]; intros Hall acc.
  - exists []. by rewrite app_nil_r.
  - destruct (Hall c) as (p & Hp & Hbits); [by left |].
    destruct (IH (λ c' Hin, Hall c' (list_elem_of_further _ _ _ Hin)) (acc ++ p))
      as (rest & Henc & Hbits' & Hlen).
    exists (p ++ rest). cbn [get_encoded_loop foldr]. rewrite Hp, Henc.
    split; [by rewrite app_assoc |]. split; [by apply Forall_app |].
    rewrite len_app, Hlen. done.
Qed.


(** The stages of [compress] on a non-empty text. *)
Lemma compress_stages (text : str) :
  text ≠ [] →
  ∃ self encoded_text b,
    build_codes (make_frequency_dict text) init = Ok (tt, self)
    ∧ get_encoded_text text self = Ok (encoded_text, self)
    ∧ Forall bit encoded_text
    ∧ len encoded_text = weighted_length (make_frequency_dict text) (codes self)
    ∧ get_byte_array (pad_encoded_text encoded_text) = Ok b
    ∧ read_bits b = pad_encoded_text encoded_text
    ∧ compress text init = Ok (b, self).
Proof.
  intros Hne. set (frequency := make_frequency_dict text).
  destruct (build_codes_spec frequency) as (root & Hbuild & Hkeys & _).
  { intros Heq. destruct text as [| c text]; [done |].
    assert (c ∈ frequency.*1) as Hin by (apply make_frequency_dict_keys; by left).
    rewrite Heq in Hin. by apply elem_of_nil in Hin. }
  set (self := {| heap := [];
                  codes := foldl (λ m p, <[p.1 := p.2]> m) ∅ (leaf_codes root []);
                  reverse_mapping :=
                    foldl (λ m p, <[p.2 := p.1]> m) ∅ (leaf_codes root []) |}) in *.
  destruct (get_encoded_loop_length (codes self) text) with (acc := @nil ascii)
    as (encoded_text & Henc & Hbits & Hlen).
  { intros c Hc.
    destruct (fold_insert_lookup_is_Some fst snd (leaf_codes root []) ∅ c) as [p Hp].
    { left. apply make_frequency_dict_keys in Hc. fold frequency in Hc.
      rewrite <- Hkeys in Hc.
      apply list_elem_of_fmap in Hc as (e & -> & He). by exists e. }
    exists p. split; [done |].
    apply fold_insert_lookup_inv in Hp as [([c' p'] & Hin & Hk & Hv) | Hm];
      [| by rewrite lookup_empty in Hm].
    simpl in Hk, Hv. subst c' p'. by eapply (leaf_codes_bits _ []). }
  rewrite app_nil_l in Henc.
  destruct (byte_loop_chunks _ (pad_encoded_text_bits _ Hbits)) with
    (n := Z.to_nat (len (pad_encoded_text encoded_text) / 8)) (k0 := 0%nat)
    (b := @nil Z) as (b & Hloop & _ & Hrd).
  { pose proof (pad_encoded_text_aligned encoded_text). unfold len in *. lia. }
  assert (get_byte_array (pad_encoded_text encoded_text) = Ok b) as Hb.
  { unfold get_byte_array.
    rewrite decide_False by (intros H; apply H, pad_encoded_text_aligned).
    destruct (range8_aligned _ (pad_encoded_text_aligned encoded_text))
      as (n & Hn & ->).
    replace n with (Z.to_nat (len (pad_encoded_text encoded_text) / 8))
      by (unfold len; lia).
    by rewrite Hloop. }
  exists self, encoded_text, b. split; [done |].
  split; [unfold get_encoded_text; by rewrite Henc |]. split; [done |].
  split; [unfold frequency; by rewrite Hlen, weighted_length_text |]. split; [done |].
  split; [by rewrite Hrd |].
  rewrite compress_eq. fold frequency. rewrite Hbuild, Henc, Hb. done.
Qed.

(** X8.  The length of the encoded text.  On a non-empty text the code
    table is built and [get_encoded_text] returns a string of binary
    digits whose length is the sum, over the keys of the frequency
    dictionary, of the frequency times the length of the code. *)
Theorem encoded_text_length (text : str) :
  text ≠ [] →
  ∃ self encoded_text,
    build_codes (make_frequency_dict text) init = Ok (tt, self)
    ∧ get_encoded_text text self = Ok (encoded_text, self)
    ∧ Forall bit encoded_text
    ∧ len encoded_text = weighted_length (make_frequency_dict text) (codes self).
Proof.
  intros Hne.
  destruct (compress_stages text Hne) as (self & encoded_text & b & H1 & H2 & H3 & H4 & _).
  by exists self, encoded_text.
Qed.

Lemma encoded_text_length_witness :
  ∃ self encoded_text,
    build_codes (make_frequency_dict (py "aaabbc")) init = Ok (tt, self)
    ∧ get_encoded_text (py "aaabbc") self = Ok (encoded_text, self)
    ∧ Forall bit encoded_text
    ∧ len encoded_text
      = weighted_length (make_frequency_dict (py "aaabbc")) (codes self).
Proof. apply (encoded_text_length (py "aaabbc")). discriminate. Defined.



(** ** The tree of [merge_nodes] *)

(** A property of the heap that no reordering changes and that the
    merge of two nodes keeps holds of the tree [merge_nodes] ends
    with. *)
Lemma merge_loop_invariant (P : list HeapNode → Prop) :
  (∀ h h', h ≡ₚ h' → P h → P h') →
  (∀ node1 node2 h,
     P (node1 :: node2 :: h) →
     P (mkHeapNode None (freq node1 + freq node2) (Some node1) (Some node2) :: h)) →
  ∀ fuel h,
    h ≠ [] → (length h ≤ S fuel)%nat → P h →
    ∃ root, merge_loop fuel h = Some (Ok [root]) ∧ P [root].
Proof.
  intros Hperm Hmerge. induction fuel as [| fuel IH]; intros h Hne Hlen HP.
  - destruct h as [| root [| ? ?]]; [done | | simpl in Hlen; lia]. by exists root.
  - destruct h as [| node [| node' h]]; [done | by exists node |].
    cbn [merge_loop].
    destruct (heappop_Permutation HeapNode_lt (node :: node' :: h))
      as (node1 & h1 & -> & Hp1); [done |].
    assert (h1 ≠ []) as Hne1.
    { intros ->. apply Permutation_length in Hp1. simpl in Hp1. lia. }
    destruct (heappop_Permutation HeapNode_lt h1 Hne1) as (node2 & h2 & -> & Hp2).
    set (merged := mkHeapNode None (freq node1 + freq node2) (Some node1) (Some node2)).
    pose proof (heappush_Permutation HeapNode_lt h2 merged) as Hp3.
    apply IH.
    + intros Heq. rewrite Heq in Hp3. by apply Permutation_nil_cons in Hp3.
    + apply Permutation_length in Hp1, Hp2, Hp3. cbn [length] in *. lia.
    + apply (Hperm (merged :: h2)); [done |]. apply Hmerge.
      apply (Hperm (node :: node' :: h)); [| done].
      by rewrite Hp1, Hp2.
Qed.

Lemma sum_freq_app (frequency frequency' : odict) :
  sum_freq (frequency ++ frequency') = sum_freq frequency + sum_freq frequency'.
Proof.
  unfold sum_freq. induction frequency as [| [c f] frequency IH]; simpl; lia.
Qed.

Lemma sum_freq_Permutation (frequency frequency' : odict) :
  frequency ≡ₚ frequency' → sum_freq frequency = sum_freq frequency'.
Proof.
  unfold sum_freq. induction 1 as [| [c f] | [c f] [c' f'] |]; simpl; lia.
Qed.

Lemma tree_ok_sum_freq (n : HeapNode) : tree_ok n → freq n = sum_freq (leaves n).
Proof.
  induction n as [c f l r IHl IHr] using HeapNode_tree_ind.
  destruct c as [c |], l as [l |], r as [r |]; simpl; try done.
  - intros _. lia.
  - intros (-> & Hl & Hr). simpl in IHl, IHr.
    rewrite (IHl Hl), (IHr Hr). by rewrite sum_freq_app.
Qed.

Lemma leaves_nonempty (n : HeapNode) : tree_ok n → (1 ≤ length (leaves n))%nat.
Proof.
  induction n as [c f l r IHl IHr] using HeapNode_tree_ind.
  destruct c as [c |], l as [l |], r as [r |]; simpl; try done.
  intros (_ & Hl & _). rewrite length_app. specialize (IHl Hl). lia.
Qed.

Lemma leaf_codes_leaves (n : HeapNode) : ∀ current_code,
  (leaf_codes n current_code).*1 = (leaves n).*1.
Proof.
  induction n as [c f l r IHl IHr] using HeapNode_tree_ind.
  intros current_code. destruct c as [c |]; cbn [leaf_codes leaves]; [done |].
  rewrite !fmap_app. f_equal.
  - destruct l; [apply IHl | done].
  - destruct r; [apply IHr | done].
Qed.

(** In a tree of [merge_nodes] a path is shorter than the number of
    leaves. *)
Lemma leaf_codes_depth (n : HeapNode) : ∀ current_code c p,
  tree_ok n → (c, p) ∈ leaf_codes n current_code →
  (length p + 1 ≤ length current_code + length (leaves n))%nat.
Proof.
  induction n as [ch f l r IHl IHr] using HeapNode_tree_ind.
  intros current_code c p.
  destruct ch as [ch |], l as [l |], r as [r |]; simpl; try done.
  - intros _ [= -> ->]%list_elem_of_singleton. simpl. lia.
  - intros (_ & Hl & Hr) [Hin | Hin]%elem_of_app.
    + apply IHl in Hin; [| done]. rewrite length_app in *.
      pose proof (leaves_nonempty r Hr). simpl in Hin. lia.
    + apply IHr in Hin; [| done]. rewrite length_app in *.
      pose proof (leaves_nonempty l Hl). simpl in Hin. lia.
Qed.

(** The heap after [make_heap] and [merge_nodes]: one tree, built as
    [tree_ok] says, over the entries of the table. *)
Lemma merge_nodes_tree (frequency : odict) :
  frequency ≠ [] →
  ∃ root,
    merge_loop (length (foldl (λ h '(key, f),
                                 heapq.heappush HeapNode_lt h (new_HeapNode (Some key) f))
                              [] frequency))
               (foldl (λ h '(key, f),
                         heapq.heappush HeapNode_lt h (new_HeapNode (Some key) f))
                      [] frequency)
    = Some (Ok [root])
    ∧ tree_ok root ∧ leaves root ≡ₚ frequency.
Proof.
  intros Hne.
  pose proof (make_heap_loop_Permutation frequency []) as Hheap.
  set (h0 := foldl (λ h '(key, f), heapq.heappush HeapNode_lt h (new_HeapNode (Some key) f))
                   [] frequency) in *.
  rewrite app_nil_l in Hheap.
  destruct (merge_loop_invariant
              (λ h, Forall tree_ok h ∧ h ≫= leaves ≡ₚ frequency)) with
    (fuel := length h0) (h := h0) as (root & Hloop & Hok & Hleaves).
  - intros h h' Hp [Hall Hl]. split; [by rewrite <- Hp | by rewrite <- Hp].
  - intros node1 node2 h [Hall Hl].
    apply Forall_cons in Hall as [H1 Hall]. apply Forall_cons in Hall as [H2 Hall].
    split.
    + apply Forall_cons. split; [| done]. simpl. done.
    + rewrite bind_cons. simpl. rewrite !bind_cons in Hl. by rewrite <- app_assoc, Hl.
  - intros Heq. rewrite Heq in Hheap. apply Permutation_nil_l in Hheap.
    by destruct frequency.
  - lia.
  - split.
    + rewrite Hheap. apply Forall_fmap, Forall_forall. by intros [key f] _.
    + rewrite Hheap. clear. induction frequency as [| [key f] frequency IH]; [done |].
      rewrite fmap_cons, bind_cons. simpl. by rewrite IH.
  - exists root. split; [done |]. rewrite Forall_singleton in Hok.
    rewrite bind_singleton in Hleaves. by split.
Qed.

(** X10.  The tree.  On a fresh object and a non-empty frequency
    table, [make_heap] and [merge_nodes] leave one node in the heap.
    It is the root of a tree in which a leaf holds a character and no
    child and any other node holds no character, two children and the
    sum of their frequencies; the leaves are the entries of the table,
    and the frequency of the root is the sum of all frequencies. *)
Theorem merge_nodes_builds_tree (frequency : odict) :
  frequency ≠ [] →
  ∃ root,
    (make_heap frequency;; merge_nodes) init
    = Ok (tt, {| heap := [root]; codes := ∅; reverse_mapping := ∅ |})
    ∧ tree_ok root
    ∧ leaves root ≡ₚ frequency
    ∧ freq root = sum_freq frequency.
Proof.
  intros Hne. destruct (merge_nodes_tree frequency Hne) as (root & Hloop & Hok & Hl).
  exists root. split; [| split; [done | split; [done |]]].
  - unfold mbind, M_bind, make_heap, merge_nodes. cbn [heap init codes reverse_mapping].
    by rewrite Hloop.
  - rewrite (tree_ok_sum_freq root Hok). by apply sum_freq_Permutation.
Qed.

Lemma merge_nodes_builds_tree_witness :
  ∃ root,
    (make_heap (make_frequency_dict (py "aaabbc"));; merge_nodes) init
    = Ok (tt, {| heap := [root]; codes := ∅; reverse_mapping := ∅ |})
    ∧ tree_ok root
    ∧ leaves root ≡ₚ make_frequency_dict (py "aaabbc")
    ∧ freq root = sum_freq (make_frequency_dict (py "aaabbc")).
Proof.
  apply (merge_nodes_builds_tree (make_frequency_dict (py "aaabbc"))).
  discriminate.
Defined.

Lemma sum_freq_count (c : ascii) (frequency : odict) :
  sum_freq (count_character c frequency) = sum_freq frequency + 1.
Proof.
  unfold sum_freq. induction frequency as [| [k v] frequency IH]; simpl; [lia |].
  case_decide; simpl; lia.
Qed.

Lemma sum_freq_text (text : str) : sum_freq (make_frequency_dict text) = len text.
Proof.
  unfold make_frequency_dict.
  assert (∀ frequency,
    sum_freq (foldl (λ frequency character, count_character character frequency)
                    frequency text)
    = sum_freq frequency + len text) as Hgen.
  { induction text as [| c text IH]; intros frequency; simpl.
    - unfold len. simpl. lia.
    - rewrite IH, sum_freq_count. unfold len. simpl. lia. }
  rewrite Hgen. unfold sum_freq. simpl. lia.
Qed.

(** X11.  Code lengths.  On a non-empty text the code table is built,
    the frequencies of the dictionary add up to the length of the
    text, and no code is longer than the number of distinct characters
    minus one. *)
Theorem code_length_bound (text : str) :
  text ≠ [] →
  ∃ self,
    build_codes (make_frequency_dict text) init = Ok (tt, self)
    ∧ sum_freq (make_frequency_dict text) = len text
    ∧ ∀ c p, codes self !! c = Some p →
             len p ≤ len (make_frequency_dict text) - 1.
Proof.
  intros Hne. set (frequency := make_frequency_dict text).
  assert (frequency ≠ []) as Hfne.
  { intros Heq. destruct text as [| c text]; [done |].
    assert (c ∈ frequency.*1) as Hin by (apply make_frequency_dict_keys; by left).
    rewrite Heq in Hin. by apply elem_of_nil in Hin. }
  destruct (merge_nodes_tree frequency Hfne) as (root & Hloop & Hok & Hl).
  eexists. split; [| split; [apply sum_freq_text |]].
  - unfold build_codes, mbind, M_bind, make_heap, merge_nodes.
    cbn [heap init codes reverse_mapping]. rewrite Hloop.
    unfold make_codes. cbn [heap codes reverse_mapping].
    change (heapq.heappop HeapNode_lt [root]) with (Ok (root, @nil HeapNode)).
    cbn [make_codes_helper]. by rewrite make_codes_node_spec.
  - cbn [codes]. intros c p [([c' p'] & Hin & Hk & Hv) | Hm]%fold_insert_lookup_inv;
      [| by rewrite lookup_empty in Hm].
    simpl in Hk, Hv. subst c' p'.
    apply leaf_codes_depth in Hin; [| done]. apply Permutation_length in Hl.
    unfold len. simpl in Hin. lia.
Qed.

Lemma code_length_bound_witness :
  ∃ self,
    build_codes (make_frequency_dict (py "aaabbc")) init = Ok (tt, self)
    ∧ sum_freq (make_frequency_dict (py "aaabbc")) = len (py "aaabbc")
    ∧ ∀ c p, codes self !! c = Some p →
             len p ≤ len (make_frequency_dict (py "aaabbc")) - 1.
Proof. apply (code_length_bound (py "aaabbc")). discriminate. Defined.

(** ** The heap stays ordered *)

Section heap_order.
Context {A : Type} (key : A → Z).
Implicit Types heap : list A.

(** While [_siftdown] moves the hole at [pos] up: the heap is ordered
    except between [pos] and its parent, and the items below [pos] are
    no smaller than [newitem] and than the parent of [pos]. *)
Definition hole_up heap (pos : nat) (newitem : A) : Prop :=
  (pos < length heap)%nat
  ∧ (∀ i n p, (0 < i)%nat → i ≠ pos → heap !! i = Some n →
              heap !! ((i - 1) / 2)%nat = Some p → key p ≤ key n)
  ∧ (∀ c n, (0 < c)%nat → ((c - 1) / 2)%nat = pos → heap !! c = Some n →
            key newitem ≤ key n)
  ∧ (∀ c n g, (0 < pos)%nat → (0 < c)%nat → ((c - 1) / 2)%nat = pos →
              heap !! c = Some n → heap !! ((pos - 1) / 2)%nat = Some g →
              key g ≤ key n).

Lemma hole_up_place heap pos newitem :
  hole_up heap pos newitem →
  (∀ p, (0 < pos)%nat → heap !! ((pos - 1) / 2)%nat = Some p → key p ≤ key newitem) →
  heap_ordered key (<[pos := newitem]> heap).
Proof.
  intros (Hpos & K1 & K2 & _) Hexit i n p Hi Hn Hp.
  apply list_lookup_insert_Some in Hn as [(<- & <- & _) | [Hne Hn]];
    apply list_lookup_insert_Some in Hp as [(Heq & <- & _) | [Hne' Hp]].
  - lia.
  - by apply Hexit.
  - by eapply K2.
  - by eapply K1.
Qed.

Lemma _siftdown_loop_ordered fuel : ∀ heap pos newitem,
  (pos ≤ fuel)%nat → hole_up heap pos newitem →
  heap_ordered key (heapq._siftdown_loop (λ a b, key a <? key b) fuel heap 0 pos newitem).
Proof.
  induction fuel as [| fuel IH]; intros heap pos newitem Hfuel Hinv;
    cbn [heapq._siftdown_loop].
  - apply hole_up_place; [done |]. lia.
  - case_decide as Hlt; [| apply hole_up_place; [done | lia]].
    destruct (heap !! ((pos - 1) / 2)%nat) as [parent |] eqn:Hparent;
      [| apply hole_up_place; [done | congruence]].
    destruct (key newitem <? key parent) eqn:Hcmp;
      [| apply hole_up_place; [done |]; intros p _ Hp;
         assert (p = parent) as -> by congruence; apply Z.ltb_ge in Hcmp; lia].
    apply Z.ltb_lt in Hcmp. destruct Hinv as (Hpos & K1 & K2 & K3).
    assert ((pos - 1) / 2 < pos)%nat as Hpp by lia.
    apply IH; [lia |]. split; [rewrite length_insert; lia |]. split; [| split].
    + intros i n p Hi Hne Hn Hp.
      apply list_lookup_insert_Some in Hn as [(<- & <- & _) | [Hne' Hn]];
        apply list_lookup_insert_Some in Hp as [(Heq & <- & _) | [Hne'' Hp]].
      * lia.
      * rewrite Hparent in Hp. injection Hp as <-. lia.
      * by eapply (K3 i n parent).
      * by eapply K1.
    + intros c n Hc Hpc Hn.
      apply list_lookup_insert_Some in Hn as [(<- & <- & _) | [Hne' Hn]]; [lia |].
      assert (key parent ≤ key n); [| lia].
      eapply (K1 c n parent); [done.. |]. by rewrite Hpc.
    + intros c n g Hpp0 Hc Hpc Hn Hg.
      rewrite list_lookup_insert_ne in Hg by lia.
      assert (key g ≤ key parent) as Hgp
        by (apply (K1 ((pos - 1) / 2)%nat parent g); [lia | lia | done | done]).
      apply list_lookup_insert_Some in Hn as [(<- & <- & _) | [Hne' Hn]]; [done |].
      assert (key parent ≤ key n); [| lia].
      eapply (K1 c n parent); [done.. |]. by rewrite Hpc.
Qed.

Lemma heappush_ordered heap item :
  heap_ordered key heap →
  heap_ordered key (heapq.heappush (λ a b, key a <? key b) heap item).
Proof.
  intros Hord. unfold heapq.heappush, heapq._siftdown.
  rewrite length_app. cbn [length].
  replace (length heap + 1 - 1)%nat with (length heap) by lia.
  rewrite lookup_app_r, Nat.sub_diag by lia. cbn [lookup list_lookup].
  apply _siftdown_loop_ordered; [done |].
  split; [rewrite length_app; simpl; lia |]. split; [| split].
  - intros i n p Hi Hne Hn Hp.
    assert (i < length heap)%nat.
    { apply lookup_lt_Some in Hn. rewrite length_app in Hn. simpl in Hn. lia. }
    rewrite lookup_app_l in Hn, Hp by lia. by eapply Hord.
  - intros c n Hc Hpc Hn.
    apply lookup_lt_Some in Hn. rewrite length_app in Hn. simpl in Hn. lia.
  - intros c n g _ Hc Hpc Hn.
    apply lookup_lt_Some in Hn. rewrite length_app in Hn. simpl in Hn. lia.
Qed.

(** While [_siftup] moves the hole at [pos] down: the heap is ordered
    except between [pos] and its children, and the children of [pos]
    are no smaller than its parent. *)
Definition hole_down heap (pos : nat) : Prop :=
  (pos < length heap)%nat
  ∧ (∀ i n p, (0 < i)%nat → ((i - 1) / 2)%nat ≠ pos → heap !! i = Some n →
              heap !! ((i - 1) / 2)%nat = Some p → key p ≤ key n)
  ∧ (∀ c n g, (0 < pos)%nat → (0 < c)%nat → ((c - 1) / 2)%nat = pos →
              heap !! c = Some n → heap !! ((pos - 1) / 2)%nat = Some g →
              key g ≤ key n).

Lemma _siftup_loop_ordered fuel : ∀ heap pos heap' pos',
  (length heap - pos ≤ fuel)%nat → hole_down heap pos →
  heapq._siftup_loop (λ a b, key a <? key b) fuel heap pos = (heap', pos') →
  heap_ordered key heap' ∧ (pos' < length heap')%nat
  ∧ (length heap' ≤ 2 * pos' + 1)%nat ∧ length heap' = length heap.
Proof.
  induction fuel as [| fuel IH]; intros heap pos heap' pos' Hfuel Hinv;
    cbn [heapq._siftup_loop].
  - destruct Hinv as (Hpos & _). lia.
  - destruct Hinv as (Hpos & M1 & M2). case_decide as Hlt.
    2:{ intros [= <- <-]. split; [| lia].
        intros i n p Hi Hn Hp. eapply M1; [done | | done..].
        apply lookup_lt_Some in Hn. lia. }
    set (childpos := match heap !! (2 * pos + 1)%nat, heap !! (2 * pos + 1 + 1)%nat with
                     | Some c, Some r => if negb (key c <? key r) then (2 * pos + 1 + 1)%nat
                                         else (2 * pos + 1)%nat
                     | _, _ => (2 * pos + 1)%nat
                     end).
    destruct (lookup_lt_is_Some_2 heap (2 * pos + 1)%nat Hlt) as [left Hleft].
    assert (∃ child, heap !! childpos = Some child
                     ∧ ((childpos - 1) / 2)%nat = pos ∧ (0 < childpos)%nat
                     ∧ ∀ c n, (0 < c)%nat → ((c - 1) / 2)%nat = pos →
                              heap !! c = Some n → key child ≤ key n)
      as (child & Hchild & Hcp & Hc0 & Hmin).
    { subst childpos. rewrite Hleft.
      destruct (heap !! (2 * pos + 1 + 1)%nat) as [right |] eqn:Hright.
      - destruct (key left <? key right) eqn:Hcmp; cbn [negb].
        + apply Z.ltb_lt in Hcmp. exists left. repeat split; [done | lia | lia |].
          intros c n Hc Hpc Hn.
          assert (c = 2 * pos + 1 ∨ c = 2 * pos + 1 + 1)%nat as [-> | ->] by lia;
            rewrite Hn in *; simplify_eq; lia.
        + apply Z.ltb_ge in Hcmp. exists right. repeat split; [done | lia | lia |].
          intros c n Hc Hpc Hn.
          assert (c = 2 * pos + 1 ∨ c = 2 * pos + 1 + 1)%nat as [-> | ->] by lia;
            rewrite Hn in *; simplify_eq; lia.
      - exists left. repeat split; [done | lia | lia |].
        intros c n Hc Hpc Hn.
        assert (c = 2 * pos + 1 ∨ c = 2 * pos + 1 + 1)%nat as [-> | ->] by lia;
          rewrite Hn in *; simplify_eq; lia. }
    rewrite Hchild. intros Hloop.
    apply IH in Hloop; [rewrite length_insert in Hloop; done | rewrite length_insert; lia |].
    split; [rewrite length_insert; by eapply lookup_lt_Some |]. split.
    + intros i n p Hi Hne Hn Hp.
      apply list_lookup_insert_Some in Hn as [(<- & <- & _) | [Hne' Hn]];
        apply list_lookup_insert_Some in Hp as [(Heq & <- & _) | [Hne'' Hp]].
      * lia.
      * eapply (M2 childpos child p); [lia | done..].
      * by eapply Hmin.
      * by eapply M1.
    + intros c n g _ Hc Hpc Hn Hg.
      rewrite Hcp in Hg. rewrite list_lookup_insert_eq in Hg by done.
      injection Hg as <-.
      rewrite list_lookup_insert_ne in Hn by lia.
      eapply (M1 c n child); [done | lia | done |]. by rewrite Hpc.
Qed.

Lemma take_ordered heap k : heap_ordered key heap → heap_ordered key (take k heap).
Proof.
  intros Hord i n p Hi Hn Hp.
  apply lookup_take_Some in Hn as [Hn _]. apply lookup_take_Some in Hp as [Hp _].
  by eapply Hord.
Qed.

(** The first item of an ordered heap is a smallest one. *)
Lemma heap_ordered_min heap root :
  heap_ordered key heap → heap !! 0%nat = Some root →
  ∀ n, n ∈ heap → key root ≤ key n.
Proof.
  intros Hord Hroot n [i Hi]%list_elem_of_lookup. revert n Hi.
  induction i as [i IH] using lt_wf_ind. intros n Hi.
  destruct (decide (i = 0%nat)) as [-> | Hne]; [rewrite Hroot in Hi; injection Hi as <-; lia |].
  assert ((i - 1) / 2 < i)%nat as Hlt by lia.
  destruct (lookup_lt_is_Some_2 heap ((i - 1) / 2)%nat) as [p Hp].
  { apply lookup_lt_Some in Hi. lia. }
  pose proof (IH _ Hlt p Hp). pose proof (Hord i n p ltac:(lia) Hi Hp). lia.
Qed.

Lemma _siftup_ordered heap newitem :
  heap ≠ [] → heap_ordered key heap →
  heap_ordered key (heapq._siftup (λ a b, key a <? key b) (<[0%nat := newitem]> heap) 0).
Proof.
  intros Hne Hord. assert (0 < length heap)%nat as Hlen by (destruct heap; simpl; [done | lia]).
  unfold heapq._siftup. rewrite list_lookup_insert_eq by done.
  destruct (heapq._siftup_loop _ _ _ 0) as [heap' pos'] eqn:Hloop.
  apply _siftup_loop_ordered in Hloop as (Hord' & Hpos' & Hleaf & Hlen'); [| lia |].
  - unfold heapq._siftdown. rewrite list_lookup_insert_eq by done.
    apply _siftdown_loop_ordered; [done |].
    split; [by rewrite length_insert |]. split; [| split].
    + intros i n p Hi Hne' Hn Hp. rewrite list_lookup_insert_ne in Hn by done.
      assert (((i - 1) / 2)%nat ≠ pos').
      { apply lookup_lt_Some in Hn. lia. }
      rewrite list_lookup_insert_ne in Hp by done. by eapply Hord'.
    + intros c n Hc Hpc Hn. apply lookup_lt_Some in Hn.
      rewrite length_insert in Hn. lia.
    + intros c n g _ Hc Hpc Hn. apply lookup_lt_Some in Hn.
      rewrite length_insert in Hn. lia.
  - split; [by rewrite length_insert |]. split.
    + intros i n p Hi Hne' Hn Hp.
      rewrite list_lookup_insert_ne in Hn by lia.
      rewrite list_lookup_insert_ne in Hp by lia. by eapply Hord.
    + intros c n g Hpos. lia.
Qed.

(** [heappop] returns a smallest item and leaves an ordered heap of
    the other items. *)
Lemma heappop_ordered heap :
  heap ≠ [] → heap_ordered key heap →
  ∃ item heap',
    heapq.heappop (λ a b, key a <? key b) heap = Ok (item, heap')
    ∧ heap ≡ₚ item :: heap'
    ∧ heap_ordered key heap'
    ∧ Forall (λ n, key item ≤ key n) heap'.
Proof.
  intros Hne Hord.
  destruct (heappop_Permutation (λ a b, key a <? key b) heap Hne)
    as (item & heap' & Hpop & Hperm).
  exists item, heap'. split; [done |]. split; [done |].
  unfold heapq.heappop in Hpop.
  destruct (last heap) as [lastelt |] eqn:Hlast; [| done].
  destruct (take (length heap - 1) heap) as [| returnitem front] eqn:Htake.
  - injection Hpop as <- <-. split; [| constructor]. intros i n p _ Hn. done.
  - injection Hpop as <- <-. split.
    + change (lastelt :: front) with (<[0%nat := lastelt]> (returnitem :: front)).
      apply _siftup_ordered; [done |]. rewrite <- Htake. by apply take_ordered.
    + assert (heap !! 0%nat = Some returnitem) as Hroot.
      { assert (take (length heap - 1) heap !! 0%nat = Some returnitem) as H0
          by (by rewrite Htake).
        by apply lookup_take_Some in H0 as [? _]. }
      apply Forall_forall. intros n Hn.
      apply (heap_ordered_min heap returnitem Hord Hroot).
      rewrite Hperm. by right.
Qed.

End heap_order.

(** X12.  [make_heap] keeps the heap ordered.  On an object whose
    heap is ordered by frequency, [make_heap] returns with a heap that
    holds the nodes it had and one leaf per entry of the table, and
    that is ordered: its first node has the smallest frequency of
    all. *)
Theorem make_heap_ordered (frequency : odict) (self : HuffmanCoding) :
  heap_ordered freq (heap self) →
  ∃ h,
    make_heap frequency self
    = Ok (tt, {| heap := h; codes := codes self;
                 reverse_mapping := reverse_mapping self |})
    ∧ h ≡ₚ heap self ++ ((λ '(key, f), new_HeapNode (Some key) f) <$> frequency)
    ∧ heap_ordered freq h
    ∧ ∀ root, head h = Some root → Forall (λ n, freq root ≤ freq n) h.
Proof.
  intros Hord. eexists. split; [done |]. split; [apply make_heap_loop_Permutation |].
  assert (heap_ordered freq
            (foldl (λ h '(key, f), heapq.heappush HeapNode_lt h (new_HeapNode (Some key) f))
                   (heap self) frequency)) as Hord'.
  { generalize dependent (heap self). clear self.
    induction frequency as [| [key f] frequency IH]; intros h Hord; [done |].
    cbn [foldl]. apply IH. by apply (heappush_ordered freq). }
  split; [done |]. intros root Hroot. apply Forall_forall. intros n Hn.
  apply (heap_ordered_min freq _ root Hord'); [| done].
  by rewrite <- head_lookup.
Qed.

Lemma make_heap_ordered_witness :
  ∃ h,
    make_heap (make_frequency_dict (py "aaabbc")) init
    = Ok (tt, {| heap := h; codes := codes init;
                 reverse_mapping := reverse_mapping init |})
    ∧ h ≡ₚ heap init
           ++ ((λ '(key, f), new_HeapNode (Some key) f)
                 <$> make_frequency_dict (py "aaabbc"))
    ∧ heap_ordered freq h
    ∧ ∀ root, head h = Some root → Forall (λ n, freq root ≤ freq n) h.
Proof.
  apply (make_heap_ordered (make_frequency_dict (py "aaabbc")) init).
  intros i n p _ Hn. done.
Defined.

(** X13.  One iteration of [merge_nodes].  On an ordered heap of at
    least two nodes, the two nodes the loop pops are a node of
    smallest frequency and a node of smallest frequency among the
    others; the node it pushes has no character, these two nodes as
    left and right child and the sum of their frequencies; and the
    heap the loop goes on with holds that node and the other nodes,
    and is ordered. *)
Theorem merge_nodes_step (h : list HeapNode) (fuel : nat) :
  heap_ordered freq h → (2 ≤ length h)%nat →
  ∃ node1 node2 rest h',
    h ≡ₚ node1 :: node2 :: rest
    ∧ freq node1 ≤ freq node2
    ∧ Forall (λ n, freq node2 ≤ freq n) rest
    ∧ h' ≡ₚ mkHeapNode None (freq node1 + freq node2) (Some node1) (Some node2) :: rest
    ∧ heap_ordered freq h'
    ∧ merge_loop (S fuel) h = merge_loop fuel h'.
Proof.
  intros Hord Hlen.
  destruct (heappop_ordered freq h) as (node1 & h1 & Hpop1 & Hp1 & Hord1 & Hmin1);
    [intros ->; simpl in Hlen; lia | done |].
  assert (h1 ≠ []) as Hne1.
  { intros ->. apply Permutation_length in Hp1. simpl in Hp1. lia. }
  destruct (heappop_ordered freq h1 Hne1 Hord1)
    as (node2 & rest & Hpop2 & Hp2 & Hord2 & Hmin2).
  set (merged := mkHeapNode None (freq node1 + freq node2) (Some node1) (Some node2)).
  exists node1, node2, rest, (heapq.heappush HeapNode_lt rest merged).
  split; [by rewrite Hp1, Hp2 |]. split.
  { rewrite Forall_forall in Hmin1. apply Hmin1. rewrite Hp2. by left. }
  split; [done |]. split; [apply heappush_Permutation |].
  split; [by apply (heappush_ordered freq) |].
  destruct h as [| n [| n' h]]; [simpl in Hlen; lia.. |].
  cbn [merge_loop]. change HeapNode_lt with (λ a b, freq a <? freq b).
  by rewrite Hpop1, Hpop2.
Qed.

Lemma merge_nodes_step_witness :
  ∃ node1 node2 rest h',
    [new_HeapNode (Some "c"%char) 1; new_HeapNode (Some "a"%char) 3;
     new_HeapNode (Some "b"%char) 2] ≡ₚ node1 :: node2 :: rest
    ∧ freq node1 ≤ freq node2
    ∧ Forall (λ n, freq node2 ≤ freq n) rest
    ∧ h' ≡ₚ mkHeapNode None (freq node1 + freq node2) (Some node1) (Some node2) :: rest
    ∧ heap_ordered freq h'
    ∧ merge_loop (S 2)
        [new_HeapNode (Some "c"%char) 1; new_HeapNode (Some "a"%char) 3;
         new_HeapNode (Some "b"%char) 2]
      = merge_loop 2 h'.
Proof.
  apply (merge_nodes_step
           [new_HeapNode (Some "c"%char) 1; new_HeapNode (Some "a"%char) 3;
            new_HeapNode (Some "b"%char) 2] 2).
  - intros i n p Hi Hn Hp.
    destruct i as [| [| [| i]]]; [lia | | | done];
      simpl in Hn, Hp; injection Hn as <-; injection Hp as <-; simpl; lia.
  - simpl. lia.
Defined.

(** ** Objects that are not fresh *)

Lemma decode_loop_decoded (rm : gmap str ascii) (s : str) : ∀ acc decoded,
  decode_loop rm (acc, decoded) s
  = ((decode_loop rm (acc, []) s).1, decoded ++ (decode_loop rm (acc, []) s).2).
Proof.
  induction s as [| bit s IH]; intros acc decoded.
  - simpl. by rewrite app_nil_r.
  - unfold decode_loop. cbn [foldl]. unfold decode_step at 2 4 6. cbn [fst snd].
    destruct (rm !! (acc ++ [bit])) as [character |].
    + fold (decode_loop rm ([], decoded ++ [character]) s).
      fold (decode_loop rm ([], [] ++ [character]) s).
      rewrite IH, (IH [] ([] ++ [character])). simpl. by rewrite <- app_assoc.
    + fold (decode_loop rm (acc ++ [bit], decoded) s).
      fold (decode_loop rm (acc ++ [bit], []) s). apply IH.
Qed.

(** X14.  [decompress] needs the table [compress] built.  On an object
    whose [reverse_mapping] is empty, as it is before [compress] has
    run, [decompress] returns the empty text for every non-empty
    payload. *)
Theorem decompress_without_table (input : list Z) (self : HuffmanCoding) :
  reverse_mapping self = ∅ → Forall byte_value input → input ≠ [] →
  decompress input self = Ok ([], self).
Proof.
  intros Hrm Hinput Hne. destruct input as [| count body]; [done |].
  apply Forall_cons in Hinput as [Hcount Hbody].
  destruct (byte_bits_int2 count Hcount) as (Hl & _ & Hi).
  rewrite decompress_eq. unfold remove_padding. rewrite read_bits_cons.
  change (slice_to ?s 8) with (take 8 s).
  rewrite take_app_length' by done. rewrite Hi, Hrm.
  rewrite decode_loop_unmatched; [done |].
  intros p _ _. apply lookup_empty.
Qed.

Lemma decompress_without_table_witness : decompress [7; 31; 0] init = Ok ([], init).
Proof.
  apply (decompress_without_table [7; 31; 0] init).
  - reflexivity.
  - by apply (bool_decide_unpack _).
  - discriminate.
Defined.

(** X15.  [compress] on any object.  When [compress] returns, on a
    fresh object or not, the heap is empty, every character of the
    text has a code, and the entries the two tables had are still
    there or overwritten: no key is ever removed. *)
Theorem compress_keeps_tables (text : str) (self self' : HuffmanCoding) (b : list Z) :
  compress text self = Ok (b, self') →
  heap self' = []
  ∧ (∀ c, is_Some (codes self !! c) → is_Some (codes self' !! c))
  ∧ (∀ p, is_Some (reverse_mapping self !! p) → is_Some (reverse_mapping self' !! p)).
Proof.
  rewrite compress_eq.
  destruct (build_codes (make_frequency_dict text) self) as [[[] self1] |] eqn:Hbuild;
    [| done].
  intros Hrest.
  assert (self' = self1) as ->.
  { destruct (get_encoded_loop _ _ _); [| done].
    destruct (get_byte_array _); [| done]. by injection Hrest as _ <-. }
  clear Hrest. revert Hbuild.
  unfold build_codes, mbind, M_bind, make_heap, merge_nodes.
  cbn [heap codes reverse_mapping].
  set (h0 := foldl _ (heap self) _).
  destruct (merge_loop_terminates h0) as (h1 & -> & Hlen1).
  unfold make_codes. cbn [heap codes reverse_mapping].
  destruct h1 as [| root [| ? ?]]; [done | | simpl in Hlen1; lia].
  change (heapq.heappop HeapNode_lt [root]) with (Ok (root, @nil HeapNode)).
  cbn [make_codes_helper]. rewrite make_codes_node_spec.
  cbn [heap codes reverse_mapping]. intros [= <-]. cbn [heap codes reverse_mapping].
  split; [done |]. split.
  - intros c Hc. apply fold_insert_lookup_is_Some. by right.
  - intros p Hp. apply (fold_insert_lookup_is_Some snd fst). by right.
Qed.

Lemma compress_keeps_tables_witness :
  let self := mkHuffmanCoding [] {[ "z"%char := py "1" ]} {[ py "1" := "z"%char ]} in
  let self' := mkHuffmanCoding [] (<[ "a"%char := [] ]> {[ "z"%char := py "1" ]})
                               (<[ [] := "a"%char ]> {[ py "1" := "z"%char ]}) in
  heap self' = []
  ∧ (∀ c, is_Some (codes self !! c) → is_Some (codes self' !! c))
  ∧ (∀ p, is_Some (reverse_mapping self !! p) → is_Some (reverse_mapping self' !! p)).
Proof.
  apply (compress_keeps_tables (py "a")
           (mkHuffmanCoding [] {[ "z"%char := py "1" ]} {[ py "1" := "z"%char ]})
           (mkHuffmanCoding [] (<[ "a"%char := [] ]> {[ "z"%char := py "1" ]})
                            (<[ [] := "a"%char ]> {[ py "1" := "z"%char ]}))
           [8; 0]).
  reflexivity.
Defined.

(** ** Concatenation *)

Lemma get_encoded_loop_acc (codes : gmap ascii str) (text : str) : ∀ acc,
  get_encoded_loop codes acc text
  = match get_encoded_loop codes [] text with
    | Ok encoded_text => Ok (acc ++ encoded_text)
    | Raise e => Raise e
    end.
Proof.
  induction text as [| c text IH]; intros acc; simpl.
  - by rewrite app_nil_r.
  - destruct (codes !! c) as [code |]; [| done].
    rewrite IH, (IH code). destruct (get_encoded_loop codes [] text); [| done].
    by rewrite app_assoc.
Qed.

(** X16.  Encoding a concatenation.  The encoded text of [text1 ++
    text2] is the encoded text of [text1] followed by that of [text2];
    it is an error exactly when one of the two is. *)
Theorem get_encoded_text_app (text1 text2 : str) (self : HuffmanCoding) :
  get_encoded_text (text1 ++ text2) self
  = match get_encoded_text text1 self, get_encoded_text text2 self with
    | Ok (encoded1, _), Ok (encoded2, _) => Ok (encoded1 ++ encoded2, self)
    | Raise e, _ => Raise e
    | Ok _, Raise e => Raise e
    end.
Proof.
  unfold get_encoded_text.
  assert (∀ acc, get_encoded_loop (codes self) acc (text1 ++ text2)
                 = match get_encoded_loop (codes self) acc text1 with
                   | Ok encoded1 => get_encoded_loop (codes self) encoded1 text2
                   | Raise e => Raise e
                   end) as Happ.
  { induction text1 as [| c text1 IH]; intros acc; simpl; [done |].
    destruct (codes self !! c); [apply IH | done]. }
  rewrite Happ. destruct (get_encoded_loop (codes self) [] text1) as [encoded1 |]; [| done].
  rewrite get_encoded_loop_acc.
  by destruct (get_encoded_loop (codes self) [] text2).
Qed.

(** X17.  Decoding a concatenation.  When the bits [s1] end on a code
    boundary, that is with nothing left in [current_code], the decoding
    of [s1 ++ s2] is the decoding of [s1] followed by the decoding of
    [s2]. *)
Theorem decode_text_app (s1 s2 : str) (self : HuffmanCoding) :
  (decode_loop (reverse_mapping self) ([], []) s1).1 = [] →
  ∃ text1 text2,
    decode_text s1 self = Ok (text1, self)
    ∧ decode_text s2 self = Ok (text2, self)
    ∧ decode_text (s1 ++ s2) self = Ok (text1 ++ text2, self).
Proof.
  intros Hacc. unfold decode_text. eexists _, _. split; [done |]. split; [done |].
  rewrite decode_loop_app.
  destruct (decode_loop (reverse_mapping self) ([], []) s1) as [acc text1].
  simpl in Hacc. subst acc. by rewrite decode_loop_decoded.
Qed.

Lemma decode_text_app_witness :
  let self := {| heap := []; codes := ∅;
                 reverse_mapping := {[ py "0" := "a"%char ]} |} in
  ∃ text1 text2,
    decode_text (py "0") self = Ok (text1, self)
    ∧ decode_text (py "00") self = Ok (text2, self)
    ∧ decode_text (py "0" ++ py "00") self = Ok (text1 ++ text2, self).
Proof.
  apply (decode_text_app (py "0") (py "00")
           {| heap := []; codes := ∅; reverse_mapping := {[ py "0" := "a"%char ]} |}).
  reflexivity.
Defined.

(** ** Decoding any bits *)

Lemma leaf_codes_nonempty (n : HeapNode) current_code :
  tree_ok n → ∃ c q, (c, q) ∈ leaf_codes n current_code.
Proof.
  intros Hok. pose proof (leaves_nonempty n Hok) as Hl.
  destruct (leaf_codes n current_code) as [| [c q] L] eqn:Heq.
  - apply (f_equal (fmap fst)) in Heq. rewrite leaf_codes_leaves in Heq.
    apply (f_equal length) in Heq. rewrite length_fmap in Heq. simpl in Heq. lia.
  - exists c, q. by left.
Qed.

(** Below every node that is not a leaf there is a leaf. *)
Lemma inner_codes_below (n : HeapNode) : ∀ current_code p,
  tree_ok n → p ∈ inner_codes n current_code →
  ∃ c q, (c, q) ∈ leaf_codes n current_code
         ∧ p `prefix_of` q ∧ (length p < length q)%nat.
Proof.
  induction n as [ch f l r IHl IHr] using HeapNode_tree_ind.
  intros current_code p.
  destruct ch as [ch |], l as [l |], r as [r |]; simpl; try done.
  { by intros _ ?%elem_of_nil. }
  intros (_ & Hl & Hr) [-> | [Hin | Hin]%elem_of_app]%elem_of_cons.
  - destruct (leaf_codes_nonempty l (current_code ++ ["0"%char]) Hl) as (c & q & Hq).
    exists c, q. split; [apply elem_of_app; by left |].
    apply leaf_codes_extend in Hq as Hpre. split; [by eapply prefix_app_l |].
    apply prefix_length in Hpre. rewrite length_app in Hpre. simpl in Hpre. lia.
  - destruct (IHl _ _ Hl Hin) as (c & q & Hq & Hpre & Hlen).
    exists c, q. split; [apply elem_of_app; by left | done].
  - destruct (IHr _ _ Hr Hin) as (c & q & Hq & Hpre & Hlen).
    exists c, q. split; [apply elem_of_app; by right | done].
Qed.

(** One more bit leads from a node that is not a leaf to a leaf or to
    a node that is not a leaf. *)
Lemma inner_codes_step (n : HeapNode) : ∀ current_code p b,
  tree_ok n → p ∈ inner_codes n current_code → bit b →
  (∃ c, (c, p ++ [b]) ∈ leaf_codes n current_code)
  ∨ p ++ [b] ∈ inner_codes n current_code.
Proof.
  induction n as [ch f l r IHl IHr] using HeapNode_tree_ind.
  intros current_code p b.
  destruct ch as [ch |], l as [l |], r as [r |]; simpl; try done.
  { by intros _ ?%elem_of_nil. }
  intros (_ & Hl & Hr) [-> | [Hin | Hin]%elem_of_app]%elem_of_cons Hb.
  - destruct Hb as [-> | ->].
    + destruct l as [[c |] f' l' r']; cbn [leaf_codes inner_codes].
      * left. exists c. apply elem_of_app. left. by left.
      * right. right. apply elem_of_app. left. by left.
    + destruct r as [[c |] f' l' r']; cbn [leaf_codes inner_codes].
      * left. exists c. apply elem_of_app. right. by left.
      * right. right. apply elem_of_app. right. by left.
  - destruct (IHl _ _ _ Hl Hin Hb) as [[c Hc] | Hp].
    + left. exists c. apply elem_of_app. by left.
    + right. right. apply elem_of_app. by left.
  - destruct (IHr _ _ _ Hr Hin Hb) as [[c Hc] | Hp].
    + left. exists c. apply elem_of_app. by right.
    + right. right. apply elem_of_app. by right.
Qed.

(** While bits are decoded with the table of a tree, [current_code]
    is the path to a node that is not a leaf. *)
Lemma decode_loop_inner (root : HeapNode) (s : str) :
  tree_ok root → char root = None → Forall bit s →
  ∀ acc decoded,
    acc ∈ inner_codes root [] →
    (decode_loop (foldl (λ m e, <[e.2 := e.1]> m) ∅ (leaf_codes root []))
                 (acc, decoded) s).1 ∈ inner_codes root [].
Proof.
  intros Hok Hroot. induction 1 as [| b s Hb _ IH]; intros acc decoded Hacc; [done |].
  unfold decode_loop. cbn [foldl]. unfold decode_step at 2. cbn [fst snd].
  set (rm := foldl (λ m e, <[e.2 := e.1]> m) ∅ (leaf_codes root [])).
  destruct (rm !! (acc ++ [b])) as [c |] eqn:Hm.
  - apply IH. destruct root as [ch f l r]. simpl in Hroot. subst ch. by left.
  - apply IH. destruct (inner_codes_step root [] acc b Hok Hacc Hb) as [[c Hc] | Hp];
      [| done].
    destruct (fold_insert_lookup_is_Some snd fst (leaf_codes root []) ∅ (acc ++ [b]))
      as [c' Hc'].
    { left. by exists (c, acc ++ [b]). }
    fold rm in Hc'. congruence.
Qed.

Lemma build_codes_tree (frequency : odict) :
  frequency ≠ [] →
  ∃ root,
    build_codes frequency init
    = Ok (tt, {| heap := [];
                 codes := foldl (λ m p, <[p.1 := p.2]> m) ∅ (leaf_codes root []);
                 reverse_mapping :=
                   foldl (λ m p, <[p.2 := p.1]> m) ∅ (leaf_codes root []) |})
    ∧ tree_ok root ∧ leaves root ≡ₚ frequency.
Proof.
  intros Hne. destruct (merge_nodes_tree frequency Hne) as (root & Hloop & Hok & Hl).
  exists root. split; [| done].
  unfold build_codes, mbind, M_bind, make_heap, merge_nodes.
  cbn [heap init codes reverse_mapping]. rewrite Hloop.
  unfold make_codes. cbn [heap codes reverse_mapping].
  change (heapq.heappop HeapNode_lt [root]) with (Ok (root, @nil HeapNode)).
  cbn [make_codes_helper]. by rewrite make_codes_node_spec.
Qed.

(** X18.  Bits that are not an encoded text.  With the table of a text
    of at least two distinct characters, decoding any string of binary
    digits leaves fewer undecoded digits in [current_code] than there
    are distinct characters, less one: every string of digits is
    decoded up to a short tail. *)
Theorem decode_leftover_bound (text : str) (a b : ascii) :
  a ∈ text → b ∈ text → a ≠ b →
  ∃ self,
    build_codes (make_frequency_dict text) init = Ok (tt, self)
    ∧ ∀ s, Forall bit s →
           len (decode_loop (reverse_mapping self) ([], []) s).1
           ≤ len (make_frequency_dict text) - 2.
Proof.
  intros Ha Hb Hab. set (frequency := make_frequency_dict text).
  assert (2 ≤ length frequency)%nat as Hlen.
  { apply (two_keys frequency a b); [| | done]; by apply make_frequency_dict_keys. }
  destruct (build_codes_tree frequency) as (root & -> & Hok & Hl).
  { intros Heq. rewrite Heq in Hlen. simpl in Hlen. lia. }
  eexists. split; [done |]. cbn [reverse_mapping]. intros s Hs.
  apply Permutation_length in Hl.
  assert (char root = None) as Hroot.
  { destruct root as [[c |] f l r]; [| done]. simpl in Hl. lia. }
  assert ([] ∈ inner_codes root []) as Hnil.
  { destruct root as [ch f l r]. simpl in Hroot. subst ch. by left. }
  pose proof (decode_loop_inner root s Hok Hroot Hs [] [] Hnil) as Hin.
  destruct (inner_codes_below root [] _ Hok Hin) as (c & q & Hq & _ & Hlt).
  apply leaf_codes_depth in Hq; [| done]. unfold len. simpl in Hq. lia.
Qed.

Lemma decode_leftover_bound_witness :
  ∃ self,
    build_codes (make_frequency_dict (py "aaabbc")) init = Ok (tt, self)
    ∧ ∀ s, Forall bit s →
           len (decode_loop (reverse_mapping self) ([], []) s).1
           ≤ len (make_frequency_dict (py "aaabbc")) - 2.
Proof.
  apply (decode_leftover_bound (py "aaabbc") "a"%char "b"%char).
  - by apply (bool_decide_unpack _).
  - by apply (bool_decide_unpack _).
  - discriminate.
Defined.
